(** * RTags: the [rc] query client and the project's visited-file bookkeeping

    A shallow embedding of [rclient/main.cpp] (the command line query
    client) and of the inline part of [src/Project.h], followed by the
    properties of the specification that concern them.

    Conventions.
    - Unsigned C++ integers are [N]; where the code does arithmetic that can
      wrap, the reduction modulo [2^32] is written out.
    - [QByteArray], [Path] and [char*] values are [string]s.
    - [QList] is [list]; a [QSet] is a duplicate free [list] standing for one
      iteration order of the set.
    - [Set<T>] and [Hash<K,V>] of rct are [gset] and [gmap]. *)

From Stdlib Require Import ZArith NArith Ascii List Lia Bool DecimalString.
From stdpp Require Import base decidable countable gmap sets list strings sorting.

Local Open Scope N_scope.

(** ** Locations *)

(** [Location]: a file id, a line and a column, all [unsigned]. A zero file
    id is the invalid location. *)
Record Location : Type := mkLocation {
  file : N;
  line : N;
  column : N
}.

#[global] Instance Location_eq_dec : EqDecision Location.
Proof. solve_decision. Defined.

#[global] Instance Location_countable : Countable Location.
Proof.
  refine (inj_countable' (fun l => (file l, line l, column l))
                         (fun t => mkLocation t.1.1 t.1.2 t.2) _).
  by intros [].
Defined.

(** [!loc.file] *)
Definition isNull (l : Location) : bool := N.eqb (file l) 0.
Definition isValid (l : Location) : bool := negb (isNull l).

Definition nullLocation : Location := mkLocation 0 0 0.

(** ** [Project::visitFile] *)

Module Project.

(** Address of a heap allocated [IndexerJob] (the target of a
    [std::shared_ptr<IndexerJob>]). *)
Definition ptr := positive.

(** The part of [IndexerJob] that [Project.h] touches: the set of visited
    files, a [Set<uint32_t>]. *)
Record IndexerJob : Type := mkIndexerJob {
  visited : gset N
}.

(** [Project::JobData]. [job] is a shared pointer, [None] when null. The
    [pending] source descriptor plays no role below and is left out. *)
Record JobData : Type := mkJobData {
  crashCount : Z;
  job : option ptr
}.

(** The members of [Project] read or written by [visitFile], and the heap
    holding the jobs the shared pointers refer to. *)
Record State : Type := mkState {
  mVisitedFiles : gset N;
  mJobs : gmap N JobData;
  heap : gmap ptr IndexerJob
}.

(** Conversion of the 64 bit job id to the element type of [visited]. *)
Definition to_uint32 (n : N) : N := n mod 2 ^ 32.

(** [bool Project::visitFile(uint32_t fileId, uint64_t id)].
    [Set::insert] returns whether the element was new. The keys of
    [mJobs], a [Hash<uint32_t, JobData>], and the elements of [visited]
    are [uint32_t]: the 64 bit [id] is converted where it is handed to
    [contains], to [operator[]] and to [insert]. A failed [assert]
    aborts the program, which is the result [None]; with the assertions
    compiled out the same calls end in the use of a null job pointer. *)
Definition visitFile (fileId id : N) (p : State) : option (bool * State) :=
  if decide (fileId ∈ mVisitedFiles p) then Some (false, p)
  else
    let visitedFiles := {[fileId]} ∪ mVisitedFiles p in
    match mJobs p !! to_uint32 id with
    | None => None
    | Some data =>
        match job data with
        | None => None
        | Some j =>
            match heap p !! j with
            | None => None
            | Some ij =>
                let ij' := mkIndexerJob ({[to_uint32 id]} ∪ visited ij) in
                Some (true, mkState visitedFiles (mJobs p) (<[j := ij']> (heap p)))
            end
        end
    end.

(** The elements of a [Set<uint32_t>] from [begin()] to [end()]: the set
    is ordered, so they come in ascending order. *)
Definition ascending (s : gset N) : list N := merge_sort N.le (elements s).

(** [Map<Path, uint32_t> Project::visitedFiles() const], with the path of
    a file id given by [path] ([Location::path]). The loop walks the set
    from its least element on, and [ret[...] = *it] replaces what an
    earlier turn stored under the same path. *)
Definition visitedFiles (path : N -> string) (p : State) : gmap string N :=
  foldl (fun ret fileId => <[path fileId := fileId]> ret) ∅
        (ascending (mVisitedFiles p)).

(** A run of calls of [visitFile], each with its file and its job, as the
    indexer jobs make them one after the other; the results in order. *)
Fixpoint visitFiles (calls : list (N * N)) (p : State) : option (list bool * State) :=
  match calls with
  | [] => Some ([], p)
  | (fileId, id) :: calls' =>
      match visitFile fileId id p with
      | None => None
      | Some (b, p') =>
          match visitFiles calls' p' with
          | None => None
          | Some (bs, p'') => Some (b :: bs, p'')
          end
      end
  end.

(** [bool isIndexing() const { return !mJobs.isEmpty(); }] *)
Definition isIndexing (p : State) : bool := negb (bool_decide (mJobs p = ∅)).

(** How many of the calls returned [true]. *)
Definition granted (bs : list bool) : nat := length (List.filter id bs).

(** The two assertions of [visitFile] hold for the job [id]: its key, the
    id converted to [uint32_t], is in [mJobs] with a job to point to. *)
Definition running (p : State) (id : N) : Prop :=
  ∃ d j ij, mJobs p !! to_uint32 id = Some d ∧ job d = Some j ∧ heap p !! j = Some ij.

End Project.

(** ** The symbol store *)

Module SymbolStore.

(** Modelled from the spec: the symbol store ([Project::mSymbols] and the
    [insertBatch], [remove] and sync operations on it) is declared in
    [Project.h] but implemented outside the surfaced sources. The
    definitions of this module follow sections 3, 4.2 and 4.6 of the
    specification. A [CursorInfo] keeps its name, its USR and the two link
    sets; the other attributes carry no links. *)
Record CursorInfo : Type := mkCursorInfo {
  symbolName : string;
  usr : string;
  targets : gset Location;
  references : gset Location
}.

(** Modelled from the spec: the [SymbolMap], a mapping from [Location] to
    [CursorInfo]. *)
Abbreviation SymbolMap := (gmap Location CursorInfo).

(** Modelled from the spec: dropping from a [CursorInfo] every link that
    points into file [f] (the body of "remove inverse references from
    every other CursorInfo that pointed into it"). *)
Definition unlink (f : N) (ci : CursorInfo) : CursorInfo :=
  mkCursorInfo (symbolName ci) (usr ci)
               (filter (fun l => file l ≠ f) (targets ci))
               (filter (fun l => file l ≠ f) (references ci)).

(** Modelled from the spec: [remove(FileId)], "purge all entries for that
    FileId and remove inverse references from every other CursorInfo that
    pointed into it". *)
Definition remove (f : N) (s : SymbolMap) : SymbolMap :=
  unlink f <$> filter (fun kv => file kv.1 ≠ f) s.

(** The batch entries whose [targets] (resp. [references]) contain [l]. *)
Definition targeting (batch : SymbolMap) (l : Location) : gset Location :=
  dom (filter (fun kv => l ∈ targets kv.2) batch).
Definition referring (batch : SymbolMap) (l : Location) : gset Location :=
  dom (filter (fun kv => l ∈ references kv.2) batch).

(** Modelled from the spec: the repair of inverse links. The stored
    [CursorInfo] at [l] gains, as a reference, every batch entry that
    targets [l] and, as a target, every batch entry that lists [l] among
    its references. *)
Definition relink (batch : SymbolMap) (l : Location) (ci : CursorInfo) : CursorInfo :=
  mkCursorInfo (symbolName ci) (usr ci)
               (targets ci ∪ referring batch l)
               (references ci ∪ targeting batch l).

(** Modelled from the spec: [insertBatch(FileId, batch)], "atomic
    replacement of all entries for that FileId. Any prior Locations with
    that FileId are removed first; their inverse links in other files'
    CursorInfos are repaired". Only the entries of the batch that lie in
    file [f] are taken. *)
Definition insertBatch (f : N) (batch : SymbolMap) (s : SymbolMap) : SymbolMap :=
  let b := filter (fun kv => file kv.1 = f) batch in
  map_imap (fun l ci => Some (relink b l ci)) (b ∪ remove f s).

(** Modelled from the spec: one sync pass (section 4.6, step 2), "for each
    FileId in pendingData: call store.insertBatch(FileId, result)". *)
Definition sync (pendingData : list (N * SymbolMap)) (s : SymbolMap) : SymbolMap :=
  foldl (fun s fb => insertBatch fb.1 fb.2 s) s pendingData.

(** Modelled from the spec: the operations that change the store, and a
    store's history from the empty store the engine starts with. *)
Inductive Op : Type :=
  | OpRemove (f : N)
  | OpInsertBatch (f : N) (batch : SymbolMap)
  | OpSync (pendingData : list (N * SymbolMap)).

Definition apply (s : SymbolMap) (op : Op) : SymbolMap :=
  match op with
  | OpRemove f => remove f s
  | OpInsertBatch f batch => insertBatch f batch s
  | OpSync pendingData => sync pendingData s
  end.

Definition replay (ops : list Op) : SymbolMap := foldl apply ∅ ops.

(** The symmetric reference invariant over the stored locations. *)
Definition symmetric (s : SymbolMap) : Prop :=
  map_Forall (fun a ca =>
    map_Forall (fun b cb => b ∈ targets ca ↔ a ∈ references cb) s) s.

#[global] Instance symmetric_dec s : Decision (symmetric s).
Proof. unfold symmetric. apply _. Defined.

End SymbolStore.

(** ** The location codec *)

Module LocationCodec.

(** Modelled from the spec: [Database::createLocation] and
    [Database::locationToString] are members of [Database], whose code is
    outside the surfaced sources. Section 4.1 of the specification has the
    parser: "User-location parsing accepts [path:line:column] and
    [path:line] (column defaults to 1). The path is canonicalized
    (absolute, symlinks resolved) before interning. Failure: malformed
    strings yield the sentinel invalid location". Section 6 has the
    printed form, [path:line:column]. *)










End LocationCodec.

(** ** [getopt_long] *)

(** The option scanner of the C library, as [main] uses it: GNU
    [getopt_long] with [opterr = 0], an option string that starts with a
    letter (so that arguments are permuted, which for the caller means that
    non-option words are skipped), and a table whose [flag] members are all
    null. *)
Module Getopt.

Inductive has_arg_t : Type := no_argument | required_argument | optional_argument.

(** [struct option], without the [flag] member. *)
Record option_ : Type := mkOption {
  name : string;
  has_arg : has_arg_t;
  val : ascii
}.

#[global] Instance has_arg_eq_dec : EqDecision has_arg_t.
Proof. solve_decision. Defined.
#[global] Instance option_eq_dec : EqDecision option_.
Proof. solve_decision. Defined.

(** The scanner's position: [optind], and the unread rest of a word of
    clustered short options ([nextchar], empty when there is none). *)
Record state : Type := mkState {
  optind : nat;
  nextchar : string
}.

Definition initial : state := mkState 1 EmptyString.

(** The return value ([None] for [-1]), [optarg] ([None] when null) and
    the new position. *)
Definition result : Type := option ascii * option string * state.

(** [strchr(s, c) + 1]: what follows the first [c] in [s]. *)
Fixpoint strchr (s : string) (c : ascii) : option string :=
  match s with
  | EmptyString => None
  | String d s' => if Ascii.eqb c d then Some s' else strchr s' c
  end.

(** A word that is not an option: it does not start with a dash, or it is
    the lone dash. *)
Definition nonoption (a : string) : bool :=
  match a with
  | String c (String _ _) => negb (Ascii.eqb c "-")
  | _ => true
  end.

(** The index of the first option word of [l], counted from [i]. *)
Fixpoint skip_nonoptions (l : list string) (i : nat) : nat :=
  match l with
  | [] => i
  | a :: l' => if nonoption a then skip_nonoptions l' (S i) else i
  end.

(** [name=value] split at the first equals sign. *)
Fixpoint split_eq (s : string) : string * option string :=
  match s with
  | EmptyString => (EmptyString, None)
  | String c s' =>
      if Ascii.eqb c "=" then (EmptyString, Some s')
      else let '(n, v) := split_eq s' in (String c n, v)
  end.

(** The table entry a long option name selects: an exact match, or else
    the entries the name abbreviates provided they all mean the same. *)
Definition lookup_long (longopts : list option_) (n : string) : option option_ :=
  match List.find (fun o => String.eqb (name o) n) longopts with
  | Some o => Some o
  | None =>
      match List.filter (fun o => String.prefix n (name o)) longopts with
      | [] => None
      | o :: os =>
          if forallb (fun o' => bool_decide (has_arg o' = has_arg o ∧ val o' = val o)) os
          then Some o else None
      end
  end.

(** A long option, [body] being the word after its two dashes and [i] the
    index of the word. *)
Definition long_option (argv : list string) (longopts : list option_)
    (body : string) (i : nat) : result :=
  let '(n, v) := split_eq body in
  match lookup_long longopts n with
  | None => (Some "?"%char, None, mkState (S i) EmptyString)
  | Some o =>
      match v with
      | Some value =>
          match has_arg o with
          | no_argument => (Some "?"%char, None, mkState (S i) EmptyString)
          | _ => (Some (val o), Some value, mkState (S i) EmptyString)
          end
      | None =>
          match has_arg o with
          | required_argument =>
              match argv !! S i with
              | Some a => (Some (val o), Some a, mkState (S (S i)) EmptyString)
              | None => (Some "?"%char, None, mkState (S i) EmptyString)
              end
          | _ => (Some (val o), None, mkState (S i) EmptyString)
          end
      end
  end.

(** The argument kind the option string gives the letter [c]: none when
    the letter is absent, else by the colons that follow it. *)
Definition short_has_arg (optstring : string) (c : ascii) : option has_arg_t :=
  if Ascii.eqb c ":" || Ascii.eqb c ";" then None
  else
    match strchr optstring c with
    | None => None
    | Some after =>
        if String.prefix "::" after then Some optional_argument
        else if String.prefix ":" after then Some required_argument
        else Some no_argument
    end.

Definition is_empty (s : string) : bool :=
  match s with EmptyString => true | _ => false end.

(** A short option [c], [rest] being what follows it in its word and [i]
    the index of the word. *)
Definition short_option (argv : list string) (optstring : string)
    (c : ascii) (rest : string) (i : nat) : result :=
  let i1 := if is_empty rest then S i else i in
  match short_has_arg optstring c with
  | None => (Some "?"%char, None, mkState i1 rest)
  | Some optional_argument =>
      if is_empty rest then (Some c, None, mkState i1 EmptyString)
      else (Some c, Some rest, mkState (S i1) EmptyString)
  | Some required_argument =>
      if is_empty rest then
        match argv !! i1 with
        | Some a => (Some c, Some a, mkState (S i1) EmptyString)
        | None => (Some "?"%char, None, mkState i1 EmptyString)
        end
      else (Some c, Some rest, mkState (S i1) EmptyString)
  | Some no_argument => (Some c, None, mkState i1 rest)
  end.

(** One call of [getopt_long]. After the result [-1] the caller does not
    read the position again. *)
Definition getopt_long (argv : list string) (optstring : string)
    (longopts : list option_) (st : state) : result :=
  match nextchar st with
  | String c rest => short_option argv optstring c rest (optind st)
  | EmptyString =>
      let i := skip_nonoptions (drop (optind st) argv) (optind st) in
      match argv !! i with
      | None => (None, None, mkState i EmptyString)
      | Some a =>
          match a with
          | String _ (String c rest) =>
              if nonoption a then (None, None, mkState i EmptyString)
              else if Ascii.eqb c "-" then
                if is_empty rest then (None, None, mkState (S i) EmptyString)
                else long_option argv longopts rest i
              else short_option argv optstring c rest i
          | _ => (None, None, mkState i EmptyString)
          end
      end
  end.

(** What is left to scan: the size of the words from the position on. *)
Definition weight (l : list string) : nat :=
  foldr (fun a n => S (String.length a + n)) 0%nat l.

Definition remaining (argv : list string) (st : state) : nat :=
  match nextchar st with
  | EmptyString => weight (drop (optind st) argv)
  | s => (String.length s + weight (drop (S (optind st)) argv))%nat
  end.

End Getopt.

(** ** The query client, [rclient/main.cpp] *)

Module Rc.

Definition nl : string := String "010"%char EmptyString.
Definition tab : string := String "009"%char EmptyString.
Definition dquote : string := String "034"%char EmptyString.

(** *** What the client is linked against *)

(** [Database::RelativeToRoot] and [Database::None], the second argument of
    [locationToString]. *)
Inductive LocationFlag : Type := LocationNone | RelativeToRoot.

(** An open [Database], seen through the member functions [main] calls.
    [Database] is an interface whose implementations live outside the
    surfaced sources, so each member is kept abstract. A [QSet] result is
    the list of its elements in iteration order. *)
Record Database : Type := mkDatabase {
  isOpened : bool;
  path : string;
  locationPath : Location -> string;
  createLocation : string -> Location;
  locationToString : Location -> LocationFlag -> string;
  followLocation : Location -> Location;
  findReferences : Location -> list Location;
  allReferences : Location -> list Location;
  findSymbol : string -> list Location;
  listSymbols : string -> list string;
  findSuper : Location -> Location;
  findSubs : Location -> list Location;
  readFiles : list string;
  readSourceDir : string
}.

(** The rest of the outside world: [findRtagsDb] (with a null or a given
    path), [Database::create] (which reads [RTAGS_DB_TYPE], the value last
    stored by [setenv]), [fopen] on a source file, giving its unread
    bytes, and [RTags::readLine], which consumes one line and hands back
    the bytes it stored in a buffer of the given size ([None] for no
    buffer). *)
Record Env : Type := mkEnv {
  findRtagsDb : option string -> string;
  create : option string -> string -> Database;
  fopen : string -> option string;
  readLine : string -> option nat -> string * string
}.

(** *** Observable effects *)

(** The location taking queries of [Database]. *)
Inductive Query : Type :=
  QAllReferences | QFollowLocation | QFindReferences | QFindSuper | QFindSubs.

#[global] Instance Query_eq_dec : EqDecision Query.
Proof. solve_decision. Defined.

(** What a run leaves behind. [stdout] is the list of lines written; a line
    is the list of its entries, which the terminal shows separated by one
    space. [stderr] is the list of messages written. [created] lists the
    paths given to [Database::create], [queried] the location taking
    queries sent to a database, both in call order. *)
Record Sys : Type := mkSys {
  stdout : list (list string);
  stderr : list string;
  created : list string;
  queried : list (Query * Location)
}.

Definition Sys0 : Sys := mkSys [] [] [] [].


(** Computations with effects on [Sys]. *)
Definition M (A : Type) : Type := Sys -> A * Sys.

#[global] Instance M_ret : MRet M := fun A a s => (a, s).
#[global] Instance M_bind : MBind M :=
  fun A B f m s => let '(a, s') := m s in f a s'.

Definition puts (l : list string) : M unit :=
  fun s => (tt, mkSys (stdout s ++ [l]) (stderr s) (created s) (queried s)).
Definition eputs (msg : string) : M unit :=
  fun s => (tt, mkSys (stdout s) (stderr s ++ [msg]) (created s) (queried s)).
Definition opening (dbPath : string) : M unit :=
  fun s => (tt, mkSys (stdout s) (stderr s) (created s ++ [dbPath]) (queried s)).
Definition asking (q : Query) (l : Location) : M unit :=
  fun s => (tt, mkSys (stdout s) (stderr s) (created s) (queried s ++ [(q, l)])).

(** [foreach] with an accumulator. *)
Fixpoint foldM {A B : Type} (f : B -> A -> M B) (b : B) (l : list A) : M B :=
  match l with
  | [] => mret b
  | a :: l' => b' ← f b a; foldM f b' l'
  end.

(** The calls that reach a database. *)
Definition db_allReferences (db : Database) (l : Location) : M (list Location) :=
  _ ← asking QAllReferences l; mret (allReferences db l).
Definition db_followLocation (db : Database) (l : Location) : M Location :=
  _ ← asking QFollowLocation l; mret (followLocation db l).
Definition db_findReferences (db : Database) (l : Location) : M (list Location) :=
  _ ← asking QFindReferences l; mret (findReferences db l).
Definition db_findSuper (db : Database) (l : Location) : M Location :=
  _ ← asking QFindSuper l; mret (findSuper db l).
Definition db_findSubs (db : Database) (l : Location) : M (list Location) :=
  _ ← asking QFindSubs l; mret (findSubs db l).

(** [QSet::operator+=]: the elements of [r] not yet present join [out]. *)
Definition unite (out r : list Location) : list Location :=
  foldl (fun acc x => if decide (x ∈ acc) then acc else acc ++ [x]) out r.

(** [QByteArray::contains]. *)
Fixpoint contains (hay needle : string) : bool :=
  String.prefix needle hay ||
  match hay with
  | EmptyString => false
  | String _ hay' => contains hay' needle
  end.

(** [qSort] on [QByteArray]s, whose order is the one of their bytes. *)
Definition qSort (out : list string) : list string :=
  merge_sort String.le out.

(** *** [class Output] *)

Module Output.

(** [enum Flag] *)
Definition PathsRelativeToRoot : N := 0x01.
Definition NoContext : N := 0x02.
Definition SeparateLocationsBySpace : N := 0x08.
Definition PrecedingSpacePending : N := 0x10.
Definition SortOutput : N := 0x20.

(** A C condition: an integer that is not zero. *)
Definition truthy (n : N) : bool := negb (N.eqb n 0).

(** [printLocationImpl]. The [mUsedDBs] cache it fills is read by
    [usedDatabases] only, which [main] never calls; it is left out. The
    two [Q_ASSERT]s ([loc.file] and [loc.line > 0]) expand to nothing in
    a release build, which is what is embedded; the loop bound
    [loc.line - 1] is computed on [unsigned]. *)
Definition printLocationImpl (env : Env) (loc : Location) (db : Database)
    (flags : N) : string :=
  let out := locationToString db loc
               (if truthy (N.land flags PathsRelativeToRoot)
                then RelativeToRoot else LocationNone) in
  let out := if truthy (N.land flags PrecedingSpacePending)
             then " " +:+ out else out in
  if negb (truthy (N.land flags NoContext)) then
    match fopen env (locationPath db loc) with
    | Some f =>
        let f := N.iter ((line loc + (2 ^ 32 - 1)) mod 2 ^ 32)
                        (fun f => (readLine env f None).2) f in
        let buf := (readLine env f (Some 1024%nat)).1 in
        out +:+ tab +:+ buf
    | None => out
    end
  else out.

(** [printLocation]; [~SeparateLocationsBySpace] on 32 bits. *)
Definition printLocation (env : Env) (mFlags : N) (loc : Location)
    (db : Database) : M unit :=
  puts [printLocationImpl env loc db (N.ldiff mFlags SeparateLocationsBySpace)].

(** [printLocations] *)
Definition printLocations (env : Env) (mFlags : N) (t : list Location)
    (db : Database) : M unit :=
  let flags := mFlags in
  let out := map (fun l => printLocationImpl env l db flags) t in
  let out := if truthy (N.land flags SortOutput) then qSort out else out in
  if truthy (N.land flags SeparateLocationsBySpace)
  then puts out
  else foldM (fun _ e => puts [e]) tt out.

(** [print]. Its condition is the enumerator [SortOutput] itself. *)
Definition print (out : list string) : M unit :=
  let out := if truthy SortOutput then qSort out else out in
  foldM (fun _ line => puts [line]) tt out.

End Output.

(** *** [main]: the command line *)

(** The lines of the text [usage] prints, and the text itself. *)
Definition usage_lines (argv0 : string) : list string :=
  [ argv0 +:+ " [options]...";
    "  --help|-h                     Display this help";
    "  --db-file|-d [arg]            Find database using this path";
    "  --print-db-path|-p            Print out the used database path(s)";
    "  --detect-db|-D                Find .rtags.db based on path";
    "                                (default when no -d options are specified)";
    "  --db-type|-t [arg]            Type of db (leveldb or filedb)";
    "  --paths-relative-to-root|-n   Print out files matching arg";
    "  --no-context|-N               Don't print context from files when printing locations";
    "  --separate-paths-by-space|-S  Separate multiple locations by space instead of newline";
    "  --sort-output|-o              Sort output alphabetically";
    EmptyString;
    "  Modes";
    "  --follow-symbol|-f [loc]      Follow this symbol (e.g. /tmp/main.cpp:32:1)";
    "  --find-references|-r [arg]    Print references of symbol at arg";
    "  --list-symbols|-l [arg]       Print out symbols names matching arg";
    "  --files|-P [arg]              Print out files matching arg";
    "  --all-references|-a [arg]     Print all references/declarations/definitions that matches arg";
    "  --find-symbols|-s [arg]       Print out symbols matching arg";
    "  --find-super|-u [loc]         Print out superclass or reimplemented function of arg";
    "  --find-subs|-b [loc]          Print out baseclasses or reimplementations of arg" ].

Definition usage (argv0 : string) : string :=
  String.concat EmptyString (map (fun l => l +:+ nl) (usage_lines argv0)).

(** [longOptions] *)
Definition longOptions : list Getopt.option_ :=
  [ Getopt.mkOption "all-references" Getopt.required_argument "a";
    Getopt.mkOption "db" Getopt.required_argument "d";
    Getopt.mkOption "db-type" Getopt.required_argument "t";
    Getopt.mkOption "files" Getopt.optional_argument "P";
    Getopt.mkOption "find-db" Getopt.no_argument "D";
    Getopt.mkOption "find-references" Getopt.required_argument "r";
    Getopt.mkOption "find-subs" Getopt.required_argument "b";
    Getopt.mkOption "find-super" Getopt.required_argument "u";
    Getopt.mkOption "find-symbols" Getopt.required_argument "s";
    Getopt.mkOption "follow-symbol" Getopt.required_argument "f";
    Getopt.mkOption "help" Getopt.no_argument "h";
    Getopt.mkOption "list-symbols" Getopt.optional_argument "l";
    Getopt.mkOption "no-context" Getopt.no_argument "N";
    Getopt.mkOption "paths-relative-to-root" Getopt.no_argument "n";
    Getopt.mkOption "separate-paths-by-space" Getopt.no_argument "S";
    Getopt.mkOption "sort-output" Getopt.no_argument "o" ].

(** [RTags::shortOptions], which is declared outside the surfaced sources:
    it is taken to list, for each entry of the table, the entry's letter
    followed by one colon when the argument is required and by two when
    it is optional, as [getopt] expects. *)
Definition shortOptions (opts : list Getopt.option_) : string :=
  String.concat EmptyString
    (map (fun o => String (Getopt.val o)
                     match Getopt.has_arg o with
                     | Getopt.no_argument => EmptyString
                     | Getopt.required_argument => ":"
                     | Getopt.optional_argument => "::"
                     end) opts).

(** [enum Mode]; [ModeNone] is the enumerator [None]. *)
Inductive Mode : Type :=
  | ModeNone | FollowSymbol | References | FindSymbols | ListSymbols
  | Files | AllReferences | FindSuper | FindSubs.

#[global] Instance Mode_eq_dec : EqDecision Mode.
Proof. solve_decision. Defined.

(** The locals of [main] that the option loop sets, and the value of
    [RTAGS_DB_TYPE] stored by [setenv], if any. *)
Record Opts : Type := mkOpts {
  mode : Mode;
  flags : N;
  arg : string;
  dbPaths : list string;
  dbType : option string
}.

Definition Opts0 : Opts := mkOpts ModeNone 0 EmptyString [] None.

(** The option loop between two calls of [getopt_long]. *)
Record LoopState : Type := mkLoopState {
  scanner : Getopt.state;
  opts : Opts
}.

(** How one turn of the loop ends: with another turn, with the end of the
    loop, or with a [return] from [main]. *)
Inductive Turn : Type :=
  | Continue (st : LoopState)
  | Leave (o : Opts)
  | Return (status : Z) (s : Sys).

Definition argv_at (argv : list string) (i : nat) : string :=
  from_option id "(null)" (argv !! i).

(** A [QByteArray] assigned from a [char*] that may be null. *)
Definition of_charp (p : option string) : string := from_option id EmptyString p.

Definition set_flag (o : Opts) (f : N) : Opts :=
  mkOpts (mode o) (N.lor (flags o) f) (arg o) (dbPaths o) (dbType o).
Definition set_arg (o : Opts) (a : string) : Opts :=
  mkOpts (mode o) (flags o) a (dbPaths o) (dbType o).
Definition set_mode (o : Opts) (m : Mode) : Opts :=
  mkOpts m (flags o) (arg o) (dbPaths o) (dbType o).
Definition set_dbType (o : Opts) (t : option string) : Opts :=
  mkOpts (mode o) (flags o) (arg o) (dbPaths o) t.
(** [if (!db.isEmpty()) dbPaths.append(db)] *)
Definition add_db (o : Opts) (db : string) : Opts :=
  if String.eqb db EmptyString then o
  else mkOpts (mode o) (flags o) (arg o) (dbPaths o ++ [db]) (dbType o).

(** [SET_MODE(m)], followed by the rest [k] of the case. *)
Definition SET_MODE (m : Mode) (o : Opts) (k : Opts -> Turn) : Turn :=
  match mode o with
  | ModeNone => k (set_mode o m)
  | _ => Return 1 (eputs ("Mode is already set" +:+ nl) Sys0).2
  end.

(** The argument of [--files] and [--list-symbols]: the option's own, or
    else the next word when that does not start with a dash. The word is
    then stepped over. *)
Definition optional_arg (argv : list string) (optarg : option string)
    (g : Getopt.state) (o : Opts) : Turn :=
  let missing := match optarg with
                 | None => true
                 | Some s => String.eqb s EmptyString
                 end in
  match (if missing then argv !! Getopt.optind g else None) with
  | Some a =>
      if negb (String.prefix "-" a)
      then Continue (mkLoopState (Getopt.mkState (S (Getopt.optind g)) (Getopt.nextchar g))
                                 (set_arg o a))
      else Continue (mkLoopState g (set_arg o (of_charp optarg)))
  | None => Continue (mkLoopState g (set_arg o (of_charp optarg)))
  end.

(** The call [getopt_long(argc, argv, shortOptions, longOptions, ...)]. *)
Definition getopt (argv : list string) (g : Getopt.state) : Getopt.result :=
  Getopt.getopt_long argv (shortOptions longOptions) longOptions g.

(** The body of the [while] loop: one call of [getopt_long] and the
    [switch] on its result. *)
Definition loop_body (env : Env) (argv : list string) (st : LoopState) : Turn :=
  let o := opts st in
  match getopt argv (scanner st) with
  | (None, _, _) => Leave o
  | (Some idx, optarg, g) =>
      let next o' := Continue (mkLoopState g o') in
      let with_arg o' := next (set_arg o' (of_charp optarg)) in
      match idx with
      | "?" =>
          Return 1 ((_ ← eputs (usage (argv_at argv 0));
                     eputs ("rc: invalid option " +:+ dquote +:+
                            argv_at argv (Getopt.optind g) +:+ dquote +:+ nl))
                    Sys0).2
      | "N" => next (set_flag o Output.NoContext)
      | "S" => next (set_flag o Output.SeparateLocationsBySpace)
      | "o" => next (set_flag o Output.SortOutput)
      | "a" => SET_MODE AllReferences o with_arg
      | "n" => next (set_flag o Output.PathsRelativeToRoot)
      | "t" => next (set_dbType o optarg)
      | "h" => Return 0 (foldM (fun _ l => puts [l]) tt
                               (usage_lines (argv_at argv 0)) Sys0).2
      | "f" => SET_MODE FollowSymbol o with_arg
      | "P" => SET_MODE Files o (optional_arg argv optarg g)
      | "r" => SET_MODE References o with_arg
      | "D" => next (add_db o (findRtagsDb env None))
      | "d" =>
          match optarg with
          | Some p => if String.eqb p EmptyString then next o
                      else next (add_db o (findRtagsDb env (Some p)))
          | None => next o
          end
      | "l" => SET_MODE ListSymbols o (optional_arg argv optarg g)
      | "s" => SET_MODE FindSymbols o with_arg
      | "u" => SET_MODE FindSuper o with_arg
      | "b" => SET_MODE FindSubs o with_arg
      | _ => next o
      end%char
  end.

(** The result of the option loop. *)
Inductive Outcome : Type :=
  | Parsed (o : Opts)
  | Exited (status : Z) (s : Sys).

(** The [while] loop, run for at most [fuel] turns. *)
Fixpoint loop (fuel : nat) (env : Env) (argv : list string) (st : LoopState)
    : option Outcome :=
  match fuel with
  | O => None
  | S fuel' =>
      match loop_body env argv st with
      | Continue st' => loop fuel' env argv st'
      | Leave o => Some (Parsed o)
      | Return status s => Some (Exited status s)
      end
  end.

Definition LoopState0 : LoopState := mkLoopState Getopt.initial Opts0.

(** Each turn uses up part of the command line, so its size bounds the
    number of turns. *)
Definition parse (env : Env) (argv : list string) : option Outcome :=
  loop (S (Getopt.weight argv)) env argv LoopState0.

(** *** [main]: the queries *)

(** The [switch (mode)] of [main] for a selected mode, on one open
    database. *)
Definition run_mode (env : Env) (o : Opts) (db : Database) : M unit :=
  let arg := arg o in
  let flags := flags o in
  match mode o with
  | ModeNone => mret tt
  | AllReferences =>
      let loc := createLocation db arg in
      if isNull loc then eputs ("Invalid arg " +:+ arg)
      else r ← db_allReferences db loc;
           Output.printLocations env flags r db
  | FollowSymbol =>
      let loc := createLocation db arg in
      if isValid loc then
        loc ← db_followLocation db loc;
        if isValid loc then Output.printLocation env flags loc db else mret tt
      else
        out ← foldM (fun out l =>
                       ll ← db_followLocation db l;
                       mret (if isValid ll then out ++ [ll] else out))
                    [] (findSymbol db arg);
        Output.printLocations env flags out db
  | References =>
      let loc := createLocation db arg in
      if isValid loc then
        r ← db_findReferences db loc;
        Output.printLocations env flags r db
      else
        out ← foldM (fun out l =>
                       r ← db_findReferences db l;
                       mret (unite out r))
                    [] (findSymbol db arg);
        Output.printLocations env flags out db
  | FindSymbols =>
      Output.printLocations env flags (findSymbol db arg) db
  | ListSymbols =>
      let symbolNames := listSymbols db arg in
      match symbolNames with
      | [] => mret tt
      | _ => Output.print symbolNames
      end
  | Files =>
      let paths := readFiles db in
      let empty := String.eqb arg EmptyString in
      let root := if negb (Output.truthy (N.land flags Output.PathsRelativeToRoot))
                  then readSourceDir db else "./" in
      foldM (fun _ path =>
               if empty || contains path arg
               then puts [root +:+ path] else mret tt)
            tt paths
  | FindSuper =>
      let loc := createLocation db arg in
      if isValid loc then
        loc ← db_findSuper db loc;
        if isValid loc then Output.printLocation env flags loc db else mret tt
      else
        out ← foldM (fun out l =>
                       ll ← db_findSuper db l;
                       mret (if isValid ll then out ++ [ll] else out))
                    [] (findSymbol db arg);
        Output.printLocations env flags out db
  | FindSubs =>
      let loc := createLocation db arg in
      out ← (if isValid loc then
               r ← db_findSubs db loc; mret (unite [] r)
             else
               foldM (fun out l => r ← db_findSubs db l; mret (unite out r))
                     [] (findSymbol db arg));
      match out with
      | [] => mret tt
      | _ => Output.printLocations env flags out db
      end
  end.

(** The [foreach] over [dbPaths]; its value is the exit status. [done]
    stays [false], so the loop ends with the list or with the [return] of
    the case [None]. *)
Fixpoint each_db (env : Env) (argv0 : string) (o : Opts) (paths : list string)
    : M Z :=
  match paths with
  | [] => mret 0%Z
  | dbPath :: paths' =>
      if String.eqb dbPath EmptyString then each_db env argv0 o paths'
      else
        _ ← opening dbPath;
        let db := create env (dbType o) dbPath in
        if negb (isOpened db) then each_db env argv0 o paths'
        else
          match mode o with
          | ModeNone =>
              _ ← eputs (usage argv0);
              _ ← eputs ("No mode selected" +:+ nl);
              mret 1%Z
          | _ =>
              _ ← run_mode env o db;
              each_db env argv0 o paths'
          end
  end.

(** The search for a database when no [-d] or [-D] option gave one. *)
Definition default_dbPaths (env : Env) (o : Opts) : list string :=
  match dbPaths o with
  | [] =>
      let db := findRtagsDb env None in
      let db := if String.eqb db EmptyString && negb (String.eqb (arg o) EmptyString)
                then findRtagsDb env (Some (arg o)) else db in
      if String.eqb db EmptyString then [] else [db]
  | paths => paths
  end.

(** [main] after the option loop. *)
Definition run (env : Env) (argv : list string) (o : Opts) : M Z :=
  match default_dbPaths env o with
  | [] => _ ← eputs ("No databases specified" +:+ nl); mret 1%Z
  | paths => each_db env (argv_at argv 0) o paths
  end.

(** [int main(int argc, char** argv)]: the exit status and the effects.
    The copy of the command line appended to [/tmp/rc.log] is the
    subject of [log_line] below; it plays no role in the result. *)
Definition main (env : Env) (argv : list string) : option (Z * Sys) :=
  match parse env argv with
  | None => None
  | Some (Exited status s) => Some (status, s)
  | Some (Parsed o) => Some (run env argv o Sys0)
  end.

(** The first block of [main]: the text appended to [/tmp/rc.log], built
    by the calls of [QFile::write] and [QFile::putChar] in their order.
    [cwd] is the directory [getcwd] stored in [buf], [None] when it
    returned a null pointer. When the file cannot be opened the calls
    write nothing. *)
Definition log_line (cwd : option string) (argv : list string) : string :=
  let log := EmptyString in
  let log := match cwd with
             | Some buf => ((log +:+ "( cd ") +:+ buf) +:+ " && "
             | None => log
             end in
  let log := foldl (fun log a => (((log +:+ "'") +:+ a) +:+ "'") +:+ " ") log argv in
  let log := match cwd with
             | Some _ => log +:+ " )"
             | None => log
             end in
  log +:+ nl.

(** *** The options of a command line *)

(** The options [getopt_long] reports when the command line is scanned to
    its end, in order. This is the reading of "the options an invocation
    supplies" used by the properties below; [main] itself may stop
    earlier. *)
Fixpoint scan (fuel : nat) (argv : list string) (g : Getopt.state) : list ascii :=
  match fuel with
  | O => []
  | S fuel' =>
      match getopt argv g with
      | (None, _, _) => []
      | (Some c, _, g') => c :: scan fuel' argv g'
      end
  end.

Definition supplied (argv : list string) : list ascii :=
  scan (S (Getopt.weight argv)) argv Getopt.initial.

(** The query mode an option letter selects. *)
Definition mode_of_letter (c : ascii) : option Mode :=
  match c with
  | "a" => Some AllReferences
  | "f" => Some FollowSymbol
  | "P" => Some Files
  | "r" => Some References
  | "l" => Some ListSymbols
  | "s" => Some FindSymbols
  | "u" => Some FindSuper
  | "b" => Some FindSubs
  | _ => None
  end%char.

Definition is_mode_option (c : ascii) : bool :=
  bool_decide (is_Some (mode_of_letter c)).

(** What a list of options asks for, read from left to right with [m] the
    mode selected so far: help, an error, or a mode to run. *)
Inductive Verdict : Type :=
  | Help
  | InvalidOption
  | ModeAlreadySet
  | Selected (m : Mode).

Fixpoint verdict (m : Mode) (options : list ascii) : Verdict :=
  match options with
  | [] => Selected m
  | c :: options' =>
      if Ascii.eqb c "?" then InvalidOption
      else if Ascii.eqb c "h" then Help
      else match mode_of_letter c with
           | Some m' =>
               match m with
               | ModeNone => verdict m' options'
               | _ => ModeAlreadySet
               end
           | None => verdict m options'
           end
  end.

(** The path [p] names a database that opens. *)
Definition openable (env : Env) (o : Opts) (p : string) : bool :=
  negb (String.eqb p EmptyString) && isOpened (create env (dbType o) p).

(** Some database path of the run names a database that opens. *)
Definition opens (env : Env) (o : Opts) : bool :=
  existsb (openable env o) (default_dbPaths env o).

(** The databases of [paths] that open, and the paths given to
    [Database::create]. *)
Definition live (env : Env) (o : Opts) (paths : list string) : list Database :=
  map (create env (dbType o)) (List.filter (openable env o) paths).
Definition tried (paths : list string) : list string :=
  List.filter (fun p => negb (String.eqb p EmptyString)) paths.

(** *** Notions the properties are stated with *)

(** What [SET_MODE] leaves behind when it returns. *)
Definition mode_msg : Sys := mkSys [] ["Mode is already set" +:+ nl] [] [].

(** The scanner position [g'] is [g], or [g] moved by hand over a word
    that does not start with a dash. *)
Definition steps_over (argv : list string) (g g' : Getopt.state) : Prop :=
  g' = g ∨
  ∃ a, Getopt.nextchar g = EmptyString ∧ argv !! Getopt.optind g = Some a ∧
       String.prefix "-" a = false ∧
       g' = Getopt.mkState (S (Getopt.optind g)) EmptyString.

(** The result of the option loop matches what the options ask for. *)
Definition agrees (v : Verdict) (r : Outcome) : Prop :=
  match v with
  | Help => ∃ s, r = Exited 0 s ∧ stderr s = [] ∧ created s = [] ∧ queried s = []
  | InvalidOption =>
      ∃ s, r = Exited 1 s ∧ stdout s = [] ∧ created s = [] ∧ queried s = []
  | ModeAlreadySet => r = Exited 1 mode_msg
  | Selected m => ∃ o, r = Parsed o ∧ mode o = m
  end.

(** What the case [h] and the case [?] of the option loop leave behind,
    [w] being the word at [optind]. *)
Definition help_out (argv : list string) : Sys :=
  mkSys (map (fun l => [l]) (usage_lines (argv_at argv 0))) [] [] [].
Definition invalid_out (argv : list string) (w : string) : Sys :=
  mkSys [] [usage (argv_at argv 0);
            "rc: invalid option " +:+ dquote +:+ w +:+ dquote +:+ nl] [] [].

(** How the option loop ends, by what the options ask for. *)
Definition ends (argv : list string) (v : Verdict) (r : Outcome) : Prop :=
  match v with
  | Help => r = Exited 0 (help_out argv)
  | InvalidOption => ∃ w, r = Exited 1 (invalid_out argv w)
  | ModeAlreadySet => r = Exited 1 mode_msg
  | Selected m => ∃ o, r = Parsed o ∧ mode o = m
  end.

(** What [main] writes when no mode is selected and a database opens. *)
Definition no_mode_msgs (argv0 : string) : list string :=
  [usage argv0; "No mode selected" +:+ nl].

(** The display flag an option letter sets. *)
Definition flag_of_letter (c : ascii) : N :=
  match c with
  | "n" => Output.PathsRelativeToRoot
  | "N" => Output.NoContext
  | "S" => Output.SeparateLocationsBySpace
  | "o" => Output.SortOutput
  | _ => 0
  end%char.

(** The paths up to the first one that names a database that opens. *)
Fixpoint until_open (env : Env) (o : Opts) (paths : list string) : list string :=
  match paths with
  | [] => []
  | p :: paths' => if openable env o p then [p] else p :: until_open env o paths'
  end.


(** The modes whose argument may be a location. *)
Definition takes_location (m : Mode) : bool :=
  match m with
  | FollowSymbol | References | AllReferences | FindSuper | FindSubs => true
  | _ => false
  end.

(** The modes that print locations. *)
Definition prints_locations (m : Mode) : bool :=
  match m with
  | FindSymbols => true
  | _ => takes_location m
  end.

(** The answer of a mode's query at one location. *)
Definition query (db : Database) (m : Mode) (l : Location) : list Location :=
  match m with
  | AllReferences => allReferences db l
  | FollowSymbol =>
      let t := followLocation db l in if isValid t then [t] else []
  | References => findReferences db l
  | FindSuper =>
      let t := findSuper db l in if isValid t then [t] else []
  | FindSubs => findSubs db l
  | _ => []
  end.

(** The specification's rule for an argument: a location is used as it
    is, anything else is a symbol name whose locations are all queried. *)
Definition resolved (db : Database) (m : Mode) (arg : string) : list Location :=
  let loc := createLocation db arg in
  if isValid loc then query db m loc
  else concat (map (query db m) (findSymbol db arg)).

(** The locations a mode prints: the same rule, except that
    [AllReferences] takes no name and [FindSymbols] takes nothing else. *)
Definition answer (db : Database) (m : Mode) (arg : string) : list Location :=
  match m with
  | AllReferences =>
      let loc := createLocation db arg in
      if isValid loc then allReferences db loc else []
  | FindSymbols => findSymbol db arg
  | _ => resolved db m arg
  end.

(** The effects added to [s]: lines on [stdout], messages on [stderr] and
    queries to a database. *)
Definition write (lines : list (list string)) (errs : list string)
    (qs : list (Query * Location)) (s : Sys) : Sys :=
  mkSys (stdout s ++ lines) (stderr s ++ errs) (created s) (queried s ++ qs).

(** The query a mode sends to the database. *)
Definition query_tag (m : Mode) : option Query :=
  match m with
  | AllReferences => Some QAllReferences
  | FollowSymbol => Some QFollowLocation
  | References => Some QFindReferences
  | FindSuper => Some QFindSuper
  | FindSubs => Some QFindSubs
  | _ => None
  end.

(** The queries of a mode, in order: one at the argument's location when
    it is valid, else one for each location of the name, except for
    [AllReferences]. *)
Definition asked (db : Database) (m : Mode) (arg : string) : list (Query * Location) :=
  match query_tag m with
  | None => []
  | Some q =>
      let loc := createLocation db arg in
      if isValid loc then [(q, loc)]
      else match m with
           | AllReferences => []
           | _ => map (fun l => (q, l)) (findSymbol db arg)
           end
  end.

(** The error message of a mode. *)
Definition complaint (db : Database) (m : Mode) (arg : string) : list string :=
  match m with
  | AllReferences =>
      if isValid (createLocation db arg) then [] else ["Invalid arg " +:+ arg]
  | _ => []
  end.

Definition note_created (paths : list string) (s : Sys) : Sys :=
  mkSys (stdout s) (stderr s) (created s ++ paths) (queried s).

(** The lines [printLocations] makes of its entries. *)
Definition lines_of (flags : N) (out : list string) : list (list string) :=
  let out := if Output.truthy (N.land flags Output.SortOutput)
             then qSort out else out in
  if Output.truthy (N.land flags Output.SeparateLocationsBySpace)
  then [out] else map (fun e => [e]) out.

(** The locations a mode hands to [printLocations], in order. *)
Definition printed (db : Database) (m : Mode) (arg : string) : list Location :=
  let loc := createLocation db arg in
  match m with
  | References =>
      if isValid loc then findReferences db loc
      else foldl (fun out l => unite out (findReferences db l)) [] (findSymbol db arg)
  | FindSubs =>
      if isValid loc then unite [] (findSubs db loc)
      else foldl (fun out l => unite out (findSubs db l)) [] (findSymbol db arg)
  | _ => answer db m arg
  end.

(** The lines a mode writes for one database. *)
Definition mode_lines (env : Env) (o : Opts) (db : Database) : list (list string) :=
  let m := mode o in
  let loc := createLocation db (arg o) in
  let entry := fun l => Output.printLocationImpl env l db (flags o) in
  match m with
  | ModeNone => []
  | ListSymbols => map (fun e => [e]) (qSort (listSymbols db (arg o)))
  | Files =>
      map (fun p => [(if negb (Output.truthy (N.land (flags o) Output.PathsRelativeToRoot))
                      then readSourceDir db else "./") +:+ p])
          (List.filter (fun p => String.eqb (arg o) EmptyString || contains p (arg o))
                       (readFiles db))
  | FollowSymbol | FindSuper =>
      if isValid loc then map (fun l => [entry l]) (query db m loc)
      else lines_of (flags o) (map entry (printed db m (arg o)))
  | AllReferences =>
      if isValid loc then lines_of (flags o) (map entry (printed db m (arg o))) else []
  | FindSubs =>
      match printed db m (arg o) with
      | [] => []
      | out => lines_of (flags o) (map entry out)
      end
  | References | FindSymbols =>
      lines_of (flags o) (map entry (printed db m (arg o)))
  end.




(** The prefix of the paths the files query prints. *)
Definition files_root (o : Opts) (db : Database) : string :=
  if Output.truthy (N.land (flags o) Output.PathsRelativeToRoot)
  then "./" else readSourceDir db.

Definition is_substring (needle hay : string) : Prop :=
  ∃ pre post, hay = pre +:+ needle +:+ post.

(** How many of the options select a mode. *)
Definition mode_options (options : list ascii) : nat :=
  length (List.filter is_mode_option options).

End Rc.

(** ** Concrete projects, stores and databases *)

Module Fixtures.
Import Rc.

Definition declFoo : Location := mkLocation 1 1 5.
Definition callFoo : Location := mkLocation 1 1 29.
Definition callBar : Location := mkLocation 2 7 3.

Definition showN (n : N) : string :=
  match n with
  | 1 => "1" | 3 => "3" | 5 => "5" | 7 => "7" | 29 => "29" | _ => "0"
  end.

Definition showLocation (l : Location) (f : LocationFlag) : string :=
  (match f with LocationNone => "/t/" | RelativeToRoot => "./" end) +:+
  (match file l with 1 => "a.cpp" | _ => "b.cpp" end) +:+
  ":" +:+ showN (line l) +:+ ":" +:+ showN (column l).

(** A database over [/t/a.cpp] and [/t/b.cpp]: the symbol [foo] is found
    at two call sites, both of which lead to its declaration. *)
Definition db0 : Database :=
  mkDatabase true "/t/.rtags.db"
    (fun l => match file l with 1 => "/t/a.cpp" | _ => "/t/b.cpp" end)
    (fun s => if String.eqb s "/t/a.cpp:1:29" then callFoo else nullLocation)
    showLocation
    (fun l => if decide (l = callFoo ∨ l = callBar) then declFoo else nullLocation)
    (fun l => if decide (l = declFoo) then [callFoo; callBar] else [])
    (fun l => [declFoo; callFoo])
    (fun s => if String.eqb s "foo" then [callFoo; callBar] else [])
    (fun s => ["foo()"; "bar()"])
    (fun l => if decide (l = callFoo) then declFoo else nullLocation)
    (fun l => [])
    ["b.cpp"; "a.cpp"; "a.h"]
    "/t/".

(** A database that cannot be opened. *)
Definition closed_db : Database :=
  mkDatabase false "/t/.rtags.db" (fun _ => EmptyString) (fun _ => nullLocation)
    (fun _ _ => EmptyString) (fun _ => nullLocation) (fun _ => []) (fun _ => [])
    (fun _ => []) (fun _ => []) (fun _ => nullLocation) (fun _ => []) [] EmptyString.

(** [readLine] on a file given by its bytes: the bytes up to the next line
    feed, at most [max] of them stored. *)
Fixpoint read_line (f : string) : string * string :=
  match f with
  | EmptyString => (EmptyString, EmptyString)
  | String c f' =>
      if Ascii.eqb c "010" then (EmptyString, f')
      else let '(l, r) := read_line f' in (String c l, r)
  end.

Definition readLine0 (f : string) (max : option nat) : string * string :=
  let '(l, r) := read_line f in
  (match max with Some n => String.substring 0 n l | None => EmptyString end, r).

Definition a_cpp : string :=
  "int foo(); int main(){ return foo(); }" +:+ nl +:+ "// end" +:+ nl.

(** The database [db0] is found and opens; [/t/a.cpp] can be read. *)
Definition env0 : Env :=
  mkEnv (fun _ => "/t/.rtags.db") (fun _ _ => db0)
        (fun p => if String.eqb p "/t/a.cpp" then Some a_cpp else None)
        readLine0.







(** A database in which the two call sites of [foo] report the same two
    locations as their subs, in different orders. *)
Definition db_subs : Database :=
  mkDatabase true "/t/.rtags.db" (locationPath db0) (createLocation db0)
    (locationToString db0) (followLocation db0) (findReferences db0)
    (allReferences db0) (findSymbol db0) (listSymbols db0) (findSuper db0)
    (fun l => if decide (l = callFoo) then [declFoo; callBar]
              else if decide (l = callBar) then [callBar; declFoo] else [])
    (readFiles db0) (readSourceDir db0).

(** Every directory given with [-d] has a database file; the one of [/t]
    opens, no other does. *)
Definition env_dirs : Env :=
  mkEnv (fun d => match d with
                  | Some dir => dir +:+ "/.rtags.db"
                  | None => EmptyString
                  end)
        (fun _ p => if String.eqb p "/t/.rtags.db" then db0 else closed_db)
        (fun _ => None) readLine0.

(** A database file is found but does not open. *)
Definition env_closed : Env :=
  mkEnv (fun _ => "/t/.rtags.db") (fun _ _ => closed_db) (fun _ => None) readLine0.

(** Options as the loop leaves them for three command lines. *)
Definition references_foo : Opts := mkOpts References Output.NoContext "foo" [] None.
Definition follow_call : Opts :=
  mkOpts FollowSymbol Output.NoContext "/t/a.cpp:1:29" [] None.
Definition files_a : Opts := mkOpts Files 0 "a." [] None.

(** The paths of the file ids [3] and [5]. *)
Definition path0 (fileId : N) : string :=
  match fileId with 3 => "/t/a.cpp" | _ => "/t/b.cpp" end.

(** A project with one running job, number [7], that has visited the
    file [3]. *)
Definition project0 : Project.State :=
  Project.mkState {[ 3 ]}
    {[ 7 := Project.mkJobData 0 (Some 1%positive) ]}
    {[ 1%positive := Project.mkIndexerJob ∅ ]}.

(** A store with a call in file [1] to a declaration in file [2], and a
    batch for file [1] that moves the call. *)
Definition store0 : gmap Location SymbolStore.CursorInfo :=
  {[ callFoo := SymbolStore.mkCursorInfo "foo" "c:@F@foo" {[ callBar ]} ∅;
     callBar := SymbolStore.mkCursorInfo "foo()" "c:@F@foo" ∅ {[ callFoo ]} ]}.

Definition batch0 : gmap Location SymbolStore.CursorInfo :=
  {[ declFoo := SymbolStore.mkCursorInfo "foo" "c:@F@foo" {[ callBar ]} ∅ ]}.

End Fixtures.

Set Warnings "-clear-no-such-hyp".

(** * Properties

    ** The project and the symbol store *)

Section VisitFile.
Import Project.

Lemma visitFile_seen fileId id p :
  fileId ∈ mVisitedFiles p → visitFile fileId id p = Some (false, p).
Proof. intros Hin. unfold visitFile. by rewrite decide_True. Qed.

Lemma visitFile_fresh fileId id p d j ij :
  fileId ∉ mVisitedFiles p →
  mJobs p !! to_uint32 id = Some d → job d = Some j → heap p !! j = Some ij →
  visitFile fileId id p =
    Some (true, mkState ({[fileId]} ∪ mVisitedFiles p) (mJobs p)
                        (<[j := mkIndexerJob ({[to_uint32 id]} ∪ visited ij)]> (heap p))).
Proof.
  intros Hnin Hd Hj Hij. unfold visitFile.
  rewrite decide_False by done. by rewrite Hd, Hj, Hij.
Qed.

(** C9. With the job [id] running, which is what the two assertions of
    [visitFile] ask for at the key [mJobs] is looked up with, the id
    converted to [uint32_t], [visitFile fileId id] returns [true] exactly
    when [fileId] was not yet visited, and [fileId] is visited afterwards;
    any further call for [fileId] returns [false] and leaves the whole
    state, the visited files and the jobs with it, as it was. *)
Theorem visitFile_once fileId id p d j ij :
  mJobs p !! to_uint32 id = Some d → job d = Some j → heap p !! j = Some ij →
  ∃ p', visitFile fileId id p = Some (bool_decide (fileId ∉ mVisitedFiles p), p')
      ∧ mVisitedFiles p' = {[fileId]} ∪ mVisitedFiles p
      ∧ (fileId ∈ mVisitedFiles p → p' = p)
      ∧ ∀ id', visitFile fileId id' p' = Some (false, p').
Proof.
  intros Hd Hj Hij.
  destruct (decide (fileId ∈ mVisitedFiles p)) as [Hin|Hnin].
  - exists p. rewrite (visitFile_seen _ _ _ Hin).
    rewrite bool_decide_eq_false_2 by (intros Hc; by apply Hc).
    split_and!; [done | set_solver | done | intros; by apply visitFile_seen].
  - eexists. rewrite (visitFile_fresh _ _ _ _ _ _ Hnin Hd Hj Hij).
    rewrite bool_decide_eq_true_2 by done.
    split_and!; [done | done | done |].
    intros id'. apply visitFile_seen. simpl. set_solver.
Qed.
End VisitFile.

Section Store.
Import SymbolStore.

Lemma remove_lookup f s l ci :
  remove f s !! l = Some ci ↔
  file l ≠ f ∧ ∃ ci0, s !! l = Some ci0 ∧ ci = unlink f ci0.
Proof.
  unfold remove. rewrite lookup_fmap, fmap_Some. split.
  - intros (ci0 & Hl & ->). apply map_lookup_filter_Some in Hl as [Hl Hf]. eauto.
  - intros (Hf & ci0 & Hl & ->). exists ci0. split; [|done].
    by apply map_lookup_filter_Some.
Qed.

Lemma elem_of_targeting b l a :
  a ∈ targeting b l ↔ ∃ ca, b !! a = Some ca ∧ l ∈ targets ca.
Proof.
  unfold targeting. rewrite elem_of_dom. unfold is_Some.
  setoid_rewrite map_lookup_filter_Some. naive_solver.
Qed.

Lemma elem_of_referring b l a :
  a ∈ referring b l ↔ ∃ ca, b !! a = Some ca ∧ l ∈ references ca.
Proof.
  unfold referring. rewrite elem_of_dom. unfold is_Some.
  setoid_rewrite map_lookup_filter_Some. naive_solver.
Qed.

Lemma insertBatch_lookup f batch s l ci :
  insertBatch f batch s !! l = Some ci ↔
  ∃ ci0, ci = relink (filter (fun kv => file kv.1 = f) batch) l ci0 ∧
    ((file l = f ∧ batch !! l = Some ci0) ∨
     (file l ≠ f ∧ ∃ ci1, s !! l = Some ci1 ∧ ci0 = unlink f ci1)).
Proof.
  unfold insertBatch. cbv zeta. rewrite map_lookup_imap.
  set (b := filter _ batch).
  destruct ((b ∪ remove f s) !! l) as [ci0|] eqn:E; simpl.
  - apply lookup_union_Some_raw in E. split.
    + intros [= <-]. exists ci0. split; [done|].
      destruct E as [E|[E1 E2]].
      * apply map_lookup_filter_Some in E as [E Hf]. by left.
      * apply remove_lookup in E2 as (Hf & ci1 & Hs & ->). right. eauto.
    + intros (ci0' & -> & H). f_equal. f_equal.
      destruct H as [[Hf Hb]|(Hf & ci1 & Hs & ->)].
      * destruct E as [E|[E1 E2]].
        -- apply map_lookup_filter_Some in E as [E _]. congruence.
        -- apply remove_lookup in E2 as [? _]. done.
      * destruct E as [E|[E1 E2]].
        -- apply map_lookup_filter_Some in E as [_ E]. done.
        -- apply remove_lookup in E2 as (_ & ci2 & Hs2 & ->). congruence.
  - apply lookup_union_None in E as [E1 E2]. split; [done|].
    intros (ci0 & -> & [[Hf Hb]|(Hf & ci1 & Hs & ->)]).
    + assert (b !! l = Some ci0) by (by apply map_lookup_filter_Some). congruence.
    + assert (remove f s !! l = Some (unlink f ci1)) by (apply remove_lookup; eauto).
      congruence.
Qed.

Lemma remove_symmetric f s : symmetric s → symmetric (remove f s).
Proof.
  intros Hs a ca Ha b cb Hb.
  apply remove_lookup in Ha as (Hfa & ca0 & Ha & ->).
  apply remove_lookup in Hb as (Hfb & cb0 & Hb & ->).
  simpl. rewrite !elem_of_filter. specialize (Hs a ca0 Ha b cb0 Hb). simpl in Hs.
  tauto.
Qed.

Lemma insertBatch_symmetric f batch s : symmetric s → symmetric (insertBatch f batch s).
Proof.
  intros Hs a ca Ha b cb Hb.
  apply insertBatch_lookup in Ha as (ca0 & -> & Ha).
  apply insertBatch_lookup in Hb as (cb0 & -> & Hb).
  simpl. rewrite !elem_of_union, elem_of_referring, elem_of_targeting.
  setoid_rewrite map_lookup_filter_Some. simpl.
  destruct Ha as [[Hfa Ha]|(Hfa & ca1 & Ha & ->)];
    destruct Hb as [[Hfb Hb]|(Hfb & cb1 & Hb & ->)]; simpl;
    rewrite ?elem_of_filter.
  - naive_solver.
  - naive_solver.
  - naive_solver.
  - specialize (Hs a ca1 Ha b cb1 Hb). simpl in Hs. naive_solver.
Qed.

Lemma sync_symmetric pending s : symmetric s → symmetric (sync pending s).
Proof.
  revert s. induction pending as [|[f b] pending IH]; intros s Hs; [done|].
  simpl. apply IH. by apply insertBatch_symmetric.
Qed.

(** C1. The symmetric reference invariant, for every pair of stored
    locations [b ∈ targets(a)] exactly when [a ∈ references(b)], is kept by
    [remove], by [insertBatch] and by a sync pass. *)
Theorem store_symmetric_preserved (s : SymbolMap) :
  symmetric s →
  (∀ f, symmetric (remove f s)) ∧
  (∀ f batch, symmetric (insertBatch f batch s)) ∧
  (∀ pendingData, symmetric (sync pendingData s)).
Proof.
  intros Hs. split_and!; intros.
  - by apply remove_symmetric.
  - by apply insertBatch_symmetric.
  - by apply sync_symmetric.
Qed.

(** Every store the operations build from the empty one is symmetric. *)
Lemma replay_symmetric ops : symmetric (replay ops).
Proof.
  unfold replay. assert (symmetric (∅ : SymbolMap)) as H0 by (intros a ca Ha; done).
  revert H0. generalize (∅ : SymbolMap).
  induction ops as [|op ops IH]; intros s Hs; [done|].
  simpl. apply IH. destruct op; simpl.
  - by apply remove_symmetric.
  - by apply insertBatch_symmetric.
  - by apply sync_symmetric.
Qed.
End Store.

(** ** The option scanner *)

Section GetoptFacts.
Import Getopt.
Local Open Scope nat_scope.

Lemma weight_drop_S argv i a :
  argv !! i = Some a →
  weight (drop i argv) = S (String.length a + weight (drop (S i) argv)).
Proof. intros H. by rewrite (drop_S _ _ _ H). Qed.

Lemma weight_drop_le argv i : weight (drop (S i) argv) ≤ weight (drop i argv).
Proof.
  destruct (argv !! i) as [a|] eqn:E.
  - rewrite (weight_drop_S _ _ _ E). lia.
  - apply lookup_ge_None in E. rewrite !drop_ge by lia. done.
Qed.

Lemma weight_drop_mono argv i j :
  i ≤ j → weight (drop j argv) ≤ weight (drop i argv).
Proof.
  induction 1 as [|j Hle IH]; [done|].
  etrans; [apply weight_drop_le | done].
Qed.

Lemma skip_nonoptions_ge l i : i ≤ skip_nonoptions l i.
Proof.
  revert i. induction l as [|a l IH]; intros i; simpl; [done|].
  destruct (nonoption a); [|done]. specialize (IH (S i)). lia.
Qed.

Lemma short_option_remaining argv os c rest i r oa st' :
  short_option argv os c rest i = (r, oa, st') →
  remaining argv st' ≤ String.length rest + weight (drop (S i) argv).
Proof.
  pose proof (weight_drop_le argv (S i)).
  pose proof (weight_drop_le argv (S (S i))).
  unfold short_option. intros Heq.
  destruct rest; simpl in *;
    repeat case_match; simplify_eq; unfold remaining; simpl; lia.
Qed.

Lemma long_option_remaining argv lo body i r oa st' :
  long_option argv lo body i = (r, oa, st') →
  remaining argv st' ≤ weight (drop (S i) argv).
Proof.
  pose proof (weight_drop_le argv (S i)).
  unfold long_option. intros Heq.
  repeat case_match; simplify_eq; unfold remaining; simpl; lia.
Qed.

Lemma getopt_long_decreases argv os lo st c oa st' :
  getopt_long argv os lo st = (Some c, oa, st') →
  remaining argv st' < remaining argv st.
Proof.
  unfold getopt_long. destruct st as [i nc]. simpl.
  destruct nc as [|c0 rest].
  - pose proof (skip_nonoptions_ge (drop i argv) i) as Hge.
    set (k := skip_nonoptions (drop i argv) i) in *.
    destruct (argv !! k) as [a|] eqn:Ek; [|done].
    pose proof (weight_drop_mono argv i k Hge) as Hm.
    rewrite (weight_drop_S _ _ _ Ek) in Hm.
    intros Heq. unfold remaining at 2. simpl.
    repeat case_match; simplify_eq;
      first [ apply short_option_remaining in Heq
            | apply long_option_remaining in Heq ];
      simpl in *; lia.
  - intros Heq. apply short_option_remaining in Heq.
    unfold remaining at 2. simpl. lia.
Qed.

(** A non-option word under the scanner can be stepped over by hand. *)
Lemma getopt_long_skip argv os lo i a :
  argv !! i = Some a → String.prefix "-" a = false →
  getopt_long argv os lo (mkState (S i) EmptyString) =
  getopt_long argv os lo (mkState i EmptyString).
Proof.
  intros Ha Hp. unfold getopt_long. simpl.
  rewrite (drop_S _ _ _ Ha). simpl.
  assert (nonoption a = true) as ->; [|done].
  destruct a as [|c a]; [done|]. simpl in Hp.
  destruct (Ascii.ascii_dec "-" c) as [<-|Hne]; [by destruct a|].
  unfold nonoption. destruct a; [done|].
  apply negb_true_iff, Ascii.eqb_neq. congruence.
Qed.
End GetoptFacts.

(** ** The option loop *)

Section LoopFacts.
Import Rc.
Context (env : Env) (argv : list string).

(** An option with an optional argument ends its word. *)
Lemma optional_ends_word st c oa g :
  getopt argv st = (Some c, oa, g) → c = "P"%char ∨ c = "l"%char →
  Getopt.nextchar g = EmptyString.
Proof.
  intros Heq Hc. unfold getopt, Getopt.getopt_long in Heq.
  assert (∀ c0 rest i,
    Getopt.short_option argv (shortOptions longOptions) c0 rest i = (Some c, oa, g) →
    Getopt.nextchar g = EmptyString) as Hshort.
  { intros c0 rest i Hs. unfold Getopt.short_option in Hs.
    destruct (Getopt.short_has_arg _ c0) as [[]|] eqn:Es;
      repeat case_match; simplify_eq; try done;
      destruct Hc; simplify_eq; vm_compute in Es; simplify_eq. }
  assert (∀ body i,
    Getopt.long_option argv longOptions body i = (Some c, oa, g) →
    Getopt.nextchar g = EmptyString) as Hlong.
  { intros body i Hl. unfold Getopt.long_option in Hl.
    repeat case_match; simplify_eq; done. }
  repeat case_match; simplify_eq; eauto.
Qed.

Lemma optional_arg_spec oa g o :
  Getopt.nextchar g = EmptyString →
  ∃ g' a, optional_arg argv oa g o = Continue (mkLoopState g' (set_arg o a)) ∧
          steps_over argv g g'.
Proof.
  intros Hn. unfold optional_arg, steps_over.
  destruct g as [i nc]; simpl in *; subst nc.
  repeat case_match; simplify_eq; eauto 10;
    (eexists _, _; split; [done|]; right; eexists; split_and!; try done;
     by apply negb_true_iff).
Qed.

(** The cases of one turn of the loop, by the option found. *)
Lemma loop_body_spec st c oa g :
  getopt argv (scanner st) = (Some c, oa, g) →
  (c = "?"%char ∧ ∃ s, loop_body env argv st = Return 1 s ∧ stdout s = [] ∧
                       created s = [] ∧ queried s = []) ∨
  (c = "h"%char ∧ ∃ s, loop_body env argv st = Return 0 s ∧ stderr s = [] ∧
                       created s = [] ∧ queried s = []) ∨
  (c ≠ "?"%char ∧ c ≠ "h"%char ∧ ∃ m, mode_of_letter c = Some m ∧
     match mode (opts st) with
     | ModeNone =>
         ∃ g' a, loop_body env argv st =
                   Continue (mkLoopState g' (set_arg (set_mode (opts st) m) a)) ∧
                 steps_over argv g g'
     | _ => loop_body env argv st = Return 1 mode_msg
     end) ∨
  (c ≠ "?"%char ∧ c ≠ "h"%char ∧ mode_of_letter c = None ∧
     ∃ o, loop_body env argv st = Continue (mkLoopState g o) ∧
          mode o = mode (opts st) ∧ arg o = arg (opts st) ∧
          N.land (flags o) Output.PrecedingSpacePending =
          N.land (flags (opts st)) Output.PrecedingSpacePending).
Proof.
  intros Heq. unfold loop_body. rewrite Heq.
  pose proof (optional_ends_word _ _ _ _ Heq) as Hend.
  assert (∀ x, N.land (N.lor (flags (opts st)) x) Output.PrecedingSpacePending =
               N.lor (N.land (flags (opts st)) Output.PrecedingSpacePending)
                     (N.land x Output.PrecedingSpacePending)) as Hland
    by (intros; apply N.land_lor_distr_l).
  destruct c as [[] [] [] [] [] [] [] []]; cbv beta iota zeta;
    first
      [ right; right; right; split_and!; [done..|];
        unfold add_db; repeat case_match;
        eexists; (split_and!; [reflexivity|..]);
        simpl; rewrite ?Hland; simpl; rewrite ?N.lor_0_r; done
      | right; right; left; split_and!; [done..|]; eexists; split; [done|];
        unfold SET_MODE; destruct (mode (opts st)); try done;
        first [ by (eexists _, _; split; [reflexivity|by left])
              | apply optional_arg_spec; apply Hend; auto ]
      | right; left; split; [done|]; eexists; split; [reflexivity|done]
      | left; split; [done|]; eexists; split; [reflexivity|done] ].
Qed.

Lemma loop_body_leave st oa g :
  getopt argv (scanner st) = (None, oa, g) → loop_body env argv st = Leave (opts st).
Proof. intros Heq. unfold loop_body. by rewrite Heq. Qed.

Lemma steps_over_remaining g g' :
  steps_over argv g g' → (Getopt.remaining argv g' ≤ Getopt.remaining argv g)%nat.
Proof.
  intros [->|(a & Hn & Ha & _ & ->)]; [done|].
  unfold Getopt.remaining. rewrite Hn. simpl. apply weight_drop_le.
Qed.

Lemma steps_over_getopt g g' : steps_over argv g g' → getopt argv g' = getopt argv g.
Proof.
  intros [->|(a & Hn & Ha & Hp & ->)]; [done|].
  destruct g as [i nc]; simpl in *; subst nc. unfold getopt.
  by eapply getopt_long_skip.
Qed.

Lemma scan_steps_over f g g' : steps_over argv g g' → scan f argv g' = scan f argv g.
Proof.
  intros Hs. destruct f as [|f]; [done|]. simpl.
  by rewrite (steps_over_getopt _ _ Hs).
Qed.

Lemma scan_fuel f f' g :
  (Getopt.remaining argv g < f)%nat → (Getopt.remaining argv g < f')%nat →
  scan f argv g = scan f' argv g.
Proof.
  revert f' g. induction f as [|f IH]; intros f' g Hf Hf'; [lia|].
  destruct f' as [|f']; [lia|]. simpl.
  destruct (getopt argv g) as [[[c|] oa] g1] eqn:Heq; [|done].
  apply getopt_long_decreases in Heq. f_equal. apply IH; lia.
Qed.

Lemma loop_refines f st :
  (Getopt.remaining argv (scanner st) < f)%nat →
  ∃ r, loop f env argv st = Some r ∧
       agrees (verdict (mode (opts st)) (scan f argv (scanner st))) r.
Proof.
  revert st. induction f as [|f IH]; intros st Hf; [lia|]. simpl.
  destruct (getopt argv (scanner st)) as [[[c|] oa] g] eqn:Heq.
  - pose proof (getopt_long_decreases _ _ _ _ _ _ _ Heq) as Hdec.
    destruct (loop_body_spec _ _ _ _ Heq)
      as [(-> & s & -> & ?)|[(-> & s & -> & ?)|
          [(Hq & Hh & m & Hm & Hcase)|(Hq & Hh & Hm & o & -> & Hmo & _)]]].
    + eexists. split; [done|]. simpl. eauto.
    + eexists. split; [done|]. simpl. eauto.
    + apply Ascii.eqb_neq in Hq, Hh. cbn [verdict]. rewrite Hq, Hh, Hm.
      destruct (mode (opts st)) eqn:Emode;
        try (rewrite Hcase; eexists; split; [done|]; done).
      destruct Hcase as (g' & a & -> & Hs).
      rewrite <- (scan_steps_over f _ _ Hs).
      apply (IH (mkLoopState g' (set_arg (set_mode (opts st) m) a))).
      simpl. apply steps_over_remaining in Hs. lia.
    + apply Ascii.eqb_neq in Hq, Hh. cbn [verdict]. rewrite Hq, Hh, Hm, <- Hmo.
      apply (IH (mkLoopState g o)). simpl. lia.
  - rewrite (loop_body_leave _ _ _ Heq). eexists. split; [done|]. simpl. eauto.
Qed.

Lemma initial_remaining : (Getopt.remaining argv Getopt.initial < S (Getopt.weight argv))%nat.
Proof.
  unfold Getopt.remaining. simpl.
  pose proof (weight_drop_le argv 0). rewrite drop_0 in *. lia.
Qed.

Lemma parse_refines :
  ∃ r, parse env argv = Some r ∧ agrees (verdict ModeNone (supplied argv)) r.
Proof. apply (loop_refines _ LoopState0), initial_remaining. Qed.

Lemma main_total : ∃ status s, main env argv = Some (status, s).
Proof.
  destruct parse_refines as (r & Hr & _). unfold main. rewrite Hr.
  destruct r; [|eauto]. destruct (run env argv o Sys0). eauto.
Qed.
End LoopFacts.

(** ** Printing *)

Section OutputFacts.
Import Rc.
Context (env : Env).

Ltac msimpl := unfold mbind, M_bind, mret, M_ret; simpl.

Lemma write_nil s : write [] [] [] s = s.
Proof. destruct s. unfold write. simpl. by rewrite !app_nil_r. Qed.

Lemma write_write l1 e1 q1 l2 e2 q2 s :
  write l2 e2 q2 (write l1 e1 q1 s) = write (l1 ++ l2) (e1 ++ e2) (q1 ++ q2) s.
Proof. unfold write. simpl. by rewrite !app_assoc. Qed.

Lemma puts_write l s : puts l s = (tt, write [l] [] [] s).
Proof. unfold puts, write. by rewrite !app_nil_r. Qed.

Lemma eputs_write m s : eputs m s = (tt, write [] [m] [] s).
Proof. unfold eputs, write. by rewrite !app_nil_r. Qed.

Lemma asking_write q l s : asking q l s = (tt, write [] [] [(q, l)] s).
Proof. unfold asking, write. by rewrite !app_nil_r. Qed.

Lemma foldM_puts (es : list string) s :
  foldM (fun _ e => puts [e]) tt es s = (tt, write (map (fun e => [e]) es) [] [] s).
Proof.
  revert s. induction es as [|e es IH]; intros s; simpl.
  - msimpl. by rewrite write_nil.
  - msimpl. rewrite IH. unfold write. simpl.
    by rewrite <- !app_assoc, !app_nil_r.
Qed.

(** The loop of the modes that follow one location to one other. *)
Lemma foldM_follow (q : Query) (f : Location → Location) acc ls s :
  foldM (fun out l =>
           ll ← (_ ← asking q l; mret (f l));
           mret (if isValid ll then out ++ [ll] else out)) acc ls s =
  (acc ++ concat (map (fun l => if isValid (f l) then [f l] else []) ls),
   write [] [] (map (fun l => (q, l)) ls) s).
Proof.
  revert acc s. induction ls as [|l ls IH]; intros acc s; simpl.
  - msimpl. by rewrite write_nil, app_nil_r.
  - msimpl. rewrite IH. f_equal.
    + destruct (isValid (f l)); simpl; by rewrite <- ?app_assoc.
    + unfold write. simpl. by rewrite <- !app_assoc, !app_nil_r.
Qed.

(** The loop of the modes that gather sets of locations. *)
Lemma foldM_unite (q : Query) (f : Location → list Location) acc ls s :
  foldM (fun out l =>
           r ← (_ ← asking q l; mret (f l));
           mret (unite out r)) acc ls s =
  (foldl (fun out l => unite out (f l)) acc ls,
   write [] [] (map (fun l => (q, l)) ls) s).
Proof.
  revert acc s. induction ls as [|l ls IH]; intros acc s; simpl.
  - msimpl. by rewrite write_nil.
  - msimpl. rewrite IH. f_equal.
    unfold write. simpl. by rewrite <- !app_assoc, !app_nil_r.
Qed.

Lemma elem_of_unite x out r : x ∈ unite out r ↔ x ∈ out ∨ x ∈ r.
Proof.
  unfold unite. revert out. induction r as [|y r IH]; intros out; simpl.
  - set_solver.
  - rewrite IH. case_decide; set_solver.
Qed.

Lemma elem_of_foldl_unite (f : Location → list Location) x acc ls :
  x ∈ foldl (fun out l => unite out (f l)) acc ls ↔
  x ∈ acc ∨ ∃ l, l ∈ ls ∧ x ∈ f l.
Proof.
  revert acc. induction ls as [|l ls IH]; intros acc; simpl.
  - set_solver.
  - rewrite IH, elem_of_unite. set_solver.
Qed.

Lemma qSort_Permutation out : qSort out ≡ₚ out.
Proof. apply merge_sort_Permutation. Qed.

Lemma qSort_sorted out : Sorted String.le (qSort out).
Proof. apply (Sorted_merge_sort _). Qed.

Lemma elem_of_concat {A : Type} (x : A) (ls : list (list A)) :
  x ∈ concat ls ↔ ∃ l, l ∈ ls ∧ x ∈ l.
Proof.
  rewrite list_elem_of_In, in_concat. setoid_rewrite list_elem_of_In. done.
Qed.

Lemma concat_singletons (es : list string) : concat (map (fun e => [e]) es) = es.
Proof. induction es; simpl; congruence. Qed.

Lemma lines_of_Permutation flags out : concat (lines_of flags out) ≡ₚ out.
Proof.
  unfold lines_of.
  destruct (Output.truthy (N.land flags Output.SeparateLocationsBySpace));
    destruct (Output.truthy (N.land flags Output.SortOutput));
    simpl; rewrite ?app_nil_r, ?concat_singletons; auto using qSort_Permutation.
Qed.

Lemma elem_of_lines_of flags out e : e ∈ concat (lines_of flags out) ↔ e ∈ out.
Proof. by rewrite lines_of_Permutation. Qed.

Lemma printLocations_write flags t db s :
  Output.printLocations env flags t db s =
  (tt, write (lines_of flags (map (fun l => Output.printLocationImpl env l db flags) t))
             [] [] s).
Proof.
  unfold Output.printLocations, lines_of. cbv zeta.
  destruct (Output.truthy (N.land flags Output.SeparateLocationsBySpace)).
  - apply puts_write.
  - apply foldM_puts.
Qed.

Lemma print_write out s :
  Output.print out s = (tt, write (map (fun e => [e]) (qSort out)) [] [] s).
Proof. unfold Output.print. cbv zeta. simpl. apply foldM_puts. Qed.

(** A flag test reads one bit. *)
Lemma truthy_land_pow2 flags k :
  Output.truthy (N.land flags (2 ^ k)) = N.testbit flags k.
Proof.
  unfold Output.truthy.
  destruct (N.testbit flags k) eqn:Hb.
  - apply negb_true_iff, N.eqb_neq. intros H0.
    assert (N.testbit (N.land flags (2 ^ k)) k = true) as Hk
      by (by rewrite N.land_spec, Hb, N.pow2_bits_true).
    rewrite H0 in Hk. by rewrite N.bits_0 in Hk.
  - apply negb_false_iff, N.eqb_eq, N.bits_inj. intros n.
    rewrite N.land_spec, N.bits_0, N.pow2_bits_eqb.
    destruct (N.eqb_spec k n) as [<-|]; [by rewrite Hb | apply andb_false_r].
Qed.

Lemma printLocationImpl_ldiff l db flags :
  Output.printLocationImpl env l db (N.ldiff flags Output.SeparateLocationsBySpace) =
  Output.printLocationImpl env l db flags.
Proof.
  unfold Output.printLocationImpl.
  change Output.PathsRelativeToRoot with (2 ^ 0).
  change Output.PrecedingSpacePending with (2 ^ 4).
  change Output.NoContext with (2 ^ 1).
  rewrite !truthy_land_pow2, !N.ldiff_spec.
  change Output.SeparateLocationsBySpace with (2 ^ 3).
  rewrite !N.pow2_bits_eqb. simpl. by rewrite !andb_true_r.
Qed.

Lemma printLocation_write flags l db s :
  Output.printLocation env flags l db s =
  (tt, write [[Output.printLocationImpl env l db flags]] [] [] s).
Proof. unfold Output.printLocation. by rewrite printLocationImpl_ldiff, puts_write. Qed.


End OutputFacts.

(** ** The query modes *)

Section ModeFacts.
Import Rc.
Context (env : Env).

Ltac msimpl := unfold mbind, M_bind, mret, M_ret; simpl.

Lemma db_follow_loop db acc ls s :
  foldM (fun out l =>
           ll ← db_followLocation db l;
           mret (if isValid ll then out ++ [ll] else out)) acc ls s =
  (acc ++ concat (map (query db FollowSymbol) ls),
   write [] [] (map (fun l => (QFollowLocation, l)) ls) s).
Proof. apply (foldM_follow QFollowLocation (followLocation db)). Qed.

Lemma db_super_loop db acc ls s :
  foldM (fun out l =>
           ll ← db_findSuper db l;
           mret (if isValid ll then out ++ [ll] else out)) acc ls s =
  (acc ++ concat (map (query db FindSuper) ls),
   write [] [] (map (fun l => (QFindSuper, l)) ls) s).
Proof. apply (foldM_follow QFindSuper (findSuper db)). Qed.

Lemma db_references_loop db acc ls s :
  foldM (fun out l => r ← db_findReferences db l; mret (unite out r)) acc ls s =
  (foldl (fun out l => unite out (findReferences db l)) acc ls,
   write [] [] (map (fun l => (QFindReferences, l)) ls) s).
Proof. apply (foldM_unite QFindReferences (findReferences db)). Qed.

Lemma db_subs_loop db acc ls s :
  foldM (fun out l => r ← db_findSubs db l; mret (unite out r)) acc ls s =
  (foldl (fun out l => unite out (findSubs db l)) acc ls,
   write [] [] (map (fun l => (QFindSubs, l)) ls) s).
Proof. apply (foldM_unite QFindSubs (findSubs db)). Qed.

Lemma files_loop (root arg : string) (paths : list string) s :
  foldM (fun _ path =>
           if String.eqb arg EmptyString || contains path arg
           then puts [root +:+ path] else mret tt) tt paths s =
  (tt, write (map (fun p => [root +:+ p])
                  (List.filter (fun p => String.eqb arg EmptyString || contains p arg) paths))
             [] [] s).
Proof.
  revert s. induction paths as [|p paths IH]; intros s; simpl.
  - msimpl. by rewrite write_nil.
  - destruct (String.eqb arg EmptyString || contains p arg); simpl.
    + unfold mbind, M_bind. by rewrite puts_write, IH, write_write.
    + apply IH.
Qed.

Lemma elem_of_printed db m arg l :
  l ∈ printed db m arg ↔ l ∈ answer db m arg.
Proof.
  unfold printed, answer, resolved. cbv zeta.
  destruct m; try done; destruct (isValid (createLocation db arg)); try done;
    rewrite ?elem_of_foldl_unite, ?elem_of_unite; simpl;
    set_solver.
Qed.

Lemma bind_run {A B : Type} (m : M A) (f : A → M B) s a s' :
  m s = (a, s') → (m ≫= f) s = f a s'.
Proof. intros H. unfold mbind, M_bind. by rewrite H. Qed.

Lemma mret_run {A : Type} (a : A) s : (mret a : M A) s = (a, write [] [] [] s).
Proof. by rewrite write_nil. Qed.

Lemma db_allReferences_write db l s :
  db_allReferences db l s = (allReferences db l, write [] [] [(QAllReferences, l)] s).
Proof. unfold db_allReferences. by erewrite bind_run by apply asking_write. Qed.
Lemma db_followLocation_write db l s :
  db_followLocation db l s = (followLocation db l, write [] [] [(QFollowLocation, l)] s).
Proof. unfold db_followLocation. by erewrite bind_run by apply asking_write. Qed.
Lemma db_findReferences_write db l s :
  db_findReferences db l s = (findReferences db l, write [] [] [(QFindReferences, l)] s).
Proof. unfold db_findReferences. by erewrite bind_run by apply asking_write. Qed.
Lemma db_findSuper_write db l s :
  db_findSuper db l s = (findSuper db l, write [] [] [(QFindSuper, l)] s).
Proof. unfold db_findSuper. by erewrite bind_run by apply asking_write. Qed.
Lemma db_findSubs_write db l s :
  db_findSubs db l s = (findSubs db l, write [] [] [(QFindSubs, l)] s).
Proof. unfold db_findSubs. by erewrite bind_run by apply asking_write. Qed.

Ltac mrun :=
  repeat first
    [ erewrite bind_run by
        first [ apply db_allReferences_write | apply db_followLocation_write
              | apply db_findReferences_write | apply db_findSuper_write
              | apply db_findSubs_write | apply db_follow_loop | apply db_super_loop
              | apply db_references_loop | apply db_subs_loop | apply mret_run ]
    | rewrite printLocations_write | rewrite printLocation_write
    | rewrite print_write | rewrite eputs_write | rewrite files_loop
    | rewrite mret_run | rewrite write_write ];
  rewrite ?app_nil_r; simpl.

(** [run_mode] writes [mode_lines], [complaint] and [asked], and nothing
    else. *)
Lemma run_mode_write o db s :
  run_mode env o db s =
  (tt, write (mode_lines env o db) (complaint db (mode o) (arg o))
             (asked db (mode o) (arg o)) s).
Proof.
  unfold run_mode, mode_lines, complaint, asked, printed, answer, resolved.
  cbv zeta. unfold isValid.
  destruct (mode o); cbn [query_tag query negb];
    try destruct (isNull (createLocation db (arg o))) eqn:Hv; cbn [negb].
  all: unfold isValid; mrun; try done.
  all: repeat (case_match; mrun); try done.
  all: unfold write; simpl; by rewrite ?app_nil_r.
Qed.
End ModeFacts.

(** ** The loop over the databases *)

Section MainFacts.
Import Rc.
Context (env : Env).

Lemma opening_note p s : opening p s = (tt, note_created [p] s).
Proof. done. Qed.

Lemma note_created_write cr l e q s :
  write l e q (note_created cr s) = note_created cr (write l e q s).
Proof. done. Qed.

Lemma note_created_app cr1 cr2 s :
  note_created cr2 (note_created cr1 s) = note_created (cr1 ++ cr2) s.
Proof. unfold note_created. simpl. by rewrite app_assoc. Qed.

Lemma note_created_nil s : note_created [] s = s.
Proof. destruct s. unfold note_created. simpl. by rewrite app_nil_r. Qed.

(** The loop over the databases when a mode is selected. *)
Lemma each_db_selected argv0 o paths s :
  mode o ≠ ModeNone →
  each_db env argv0 o paths s =
  (0%Z, note_created (tried paths)
          (write (concat (map (mode_lines env o) (live env o paths)))
                 (concat (map (fun db => complaint db (mode o) (arg o)) (live env o paths)))
                 (concat (map (fun db => asked db (mode o) (arg o)) (live env o paths)))
                 s)).
Proof.
  intros Hm. revert s. induction paths as [|p paths IH]; intros s.
  - simpl. by rewrite write_nil, note_created_nil.
  - unfold live, tried, openable in *. cbn [each_db List.filter].
    destruct (String.eqb p EmptyString) eqn:Hp; cbn [negb andb]; [apply IH|].
    erewrite bind_run by apply opening_note.
    destruct (isOpened (create env (dbType o) p)) eqn:Hop; cbn [negb map concat].
    + assert (∀ s', (match mode o with
                     | ModeNone =>
                         _ ← eputs (usage argv0);
                         _ ← eputs ("No mode selected" +:+ nl); mret 1%Z
                     | _ => _ ← run_mode env o (create env (dbType o) p);
                            each_db env argv0 o paths
                     end) s' =
                    (_ ← run_mode env o (create env (dbType o) p);
                     each_db env argv0 o paths) s') as -> by (by destruct (mode o)).
      erewrite bind_run by apply run_mode_write.
      rewrite IH. f_equal. unfold note_created, write. simpl.
      by rewrite <- !app_assoc.
    + rewrite IH. f_equal. unfold note_created, write. simpl.
      by rewrite <- !app_assoc.
Qed.

(** The exit status of the loop over the databases. *)
Lemma each_db_status argv0 o paths s :
  (each_db env argv0 o paths s).1 =
  if bool_decide (mode o = ModeNone) && existsb (openable env o) paths then 1%Z else 0%Z.
Proof.
  destruct (decide (mode o = ModeNone)) as [Hm|Hm].
  - rewrite bool_decide_eq_true_2 by done. simpl.
    revert s. induction paths as [|p paths IH]; intros s; [done|].
    unfold openable in *. cbn [each_db existsb].
    destruct (String.eqb p EmptyString) eqn:Hp; cbn [negb andb orb]; [apply IH|].
    erewrite bind_run by apply opening_note.
    destruct (isOpened (create env (dbType o) p)); cbn [negb orb]; [|apply IH].
    by rewrite Hm.
  - rewrite bool_decide_eq_false_2 by done. by rewrite each_db_selected.
Qed.

Lemma run_status argv o s :
  (run env argv o s).1 =
  match default_dbPaths env o with
  | [] => 1%Z
  | _ => if bool_decide (mode o = ModeNone) && opens env o then 1%Z else 0%Z
  end.
Proof.
  unfold run, opens. destruct (default_dbPaths env o) eqn:E; [done|].
  apply each_db_status.
Qed.

(** The exit status of [main], by what the options ask for. *)
Lemma exit_status argv :
  ∃ status s, main env argv = Some (status, s) ∧
    match verdict ModeNone (supplied argv) with
    | Help => status = 0%Z
    | InvalidOption | ModeAlreadySet => status = 1%Z
    | Selected m =>
        ∃ o, parse env argv = Some (Parsed o) ∧ mode o = m ∧
             status = match default_dbPaths env o with
                      | [] => 1%Z
                      | _ => if bool_decide (m = ModeNone) && opens env o
                             then 1%Z else 0%Z
                      end
    end.
Proof.
  destruct (parse_refines env argv) as (r & Hr & Hv). unfold main. rewrite Hr.
  destruct (verdict ModeNone (supplied argv)); simpl in Hv.
  - destruct Hv as (s & -> & _). eauto.
  - destruct Hv as (s & -> & _). eauto.
  - subst r. eauto.
  - destruct Hv as (o & -> & <-).
    destruct (run env argv o Sys0) as [status s] eqn:Hrun.
    exists status, s. split; [done|]. exists o. split_and!; [done..|].
    by rewrite <- (run_status argv o Sys0), Hrun.
Qed.
End MainFacts.

(** ** Substrings, entries and flags *)

Section StringFacts.
Import Rc.

Lemma append_cons a (x y : string) : String a x +:+ y = String a (x +:+ y).
Proof. reflexivity. Qed.

Lemma prefix_spec (n h : string) :
  String.prefix n h = true ↔ ∃ post, h = n +:+ post.
Proof.
  revert h. induction n as [|a n IH]; intros h.
  - split; [intros _; by exists h|]. by destruct h.
  - destruct h as [|b h]; simpl.
    + split; [done|]. by intros [post Hp].
    + destruct (Ascii.ascii_dec a b) as [->|Hne].
      * rewrite IH. split; intros [post Hp]; exists post.
        -- by rewrite append_cons, <- Hp.
        -- rewrite append_cons in Hp. congruence.
      * split; [done|]. intros [post Hp]. rewrite append_cons in Hp. congruence.
Qed.

Lemma contains_spec (hay needle : string) :
  contains hay needle = true ↔ is_substring needle hay.
Proof.
  unfold is_substring. induction hay as [|c hay IH].
  - change (contains EmptyString needle)
      with (String.prefix needle EmptyString || false).
    rewrite orb_false_r, prefix_spec. split.
    + intros [post Hp]. by exists EmptyString, post.
    + intros (pre & post & Hp). destruct pre; [by exists post|done].
  - change (contains (String c hay) needle)
      with (String.prefix needle (String c hay) || contains hay needle).
    rewrite orb_true_iff, prefix_spec, IH. split.
    + intros [[post Hp]|(pre & post & Hp)].
      * by exists EmptyString, post.
      * exists (String c pre), post. by rewrite append_cons, <- Hp.
    + intros (pre & post & Hp). destruct pre as [|c' pre].
      * left. by exists post.
      * right. rewrite append_cons in Hp. exists pre, post. congruence.
Qed.

Lemma contains_empty (hay : string) : contains hay EmptyString = true.
Proof. destruct hay; reflexivity. Qed.

Lemma files_filter (arg : string) (paths : list string) :
  List.filter (fun p => String.eqb arg EmptyString || contains p arg) paths =
  List.filter (fun p => contains p arg) paths.
Proof.
  apply List.filter_ext. intros p.
  destruct (String.eqb_spec arg EmptyString) as [->|]; [|done].
  by rewrite contains_empty.
Qed.
End StringFacts.

Section EntryFacts.
Import Rc.
Context (env : Env).

(** In the modes that print locations every entry is a printed location
    of the answer, and the other way round. *)
Lemma mode_lines_entries o db e :
  prints_locations (mode o) = true →
  e ∈ concat (mode_lines env o db) ↔
  ∃ l, l ∈ answer db (mode o) (arg o) ∧ e = Output.printLocationImpl env l db (flags o).
Proof.
  intros Hm.
  assert (∀ ls : list Location,
    e ∈ map (fun l => Output.printLocationImpl env l db (flags o)) ls ↔
    ∃ l, l ∈ ls ∧ e = Output.printLocationImpl env l db (flags o)) as Hmap.
  { intros ls. rewrite list_elem_of_fmap. naive_solver. }
  assert (∀ ls : list Location,
    e ∈ concat (map (fun l => [Output.printLocationImpl env l db (flags o)]) ls) ↔
    ∃ l, l ∈ ls ∧ e = Output.printLocationImpl env l db (flags o)) as Hone.
  { intros ls. rewrite <- Hmap.
    by rewrite <- (concat_singletons (map _ ls)), map_map. }
  assert (∀ l, l ∈ printed db (mode o) (arg o) ↔ l ∈ answer db (mode o) (arg o)) as Hp
    by (intros; apply elem_of_printed).
  unfold mode_lines. cbv zeta.
  destruct (mode o) eqn:Em; try done; setoid_rewrite <- Hp.
  - (* FollowSymbol *)
    destruct (isValid (createLocation db (arg o))) eqn:Hv.
    + rewrite Hone. unfold printed, answer, resolved. cbv zeta. by rewrite Hv.
    + by rewrite elem_of_lines_of, Hmap.
  - by rewrite elem_of_lines_of, Hmap.
  - by rewrite elem_of_lines_of, Hmap.
  - (* AllReferences *)
    destruct (isValid (createLocation db (arg o))) eqn:Hv.
    + by rewrite elem_of_lines_of, Hmap.
    + unfold printed, answer. cbv zeta. rewrite Hv. simpl. set_solver.
  - (* FindSuper *)
    destruct (isValid (createLocation db (arg o))) eqn:Hv.
    + rewrite Hone. unfold printed, answer, resolved. cbv zeta. by rewrite Hv.
    + by rewrite elem_of_lines_of, Hmap.
  - (* FindSubs *)
    destruct (printed db FindSubs (arg o)) eqn:Hpr.
    + simpl. set_solver.
    + by rewrite elem_of_lines_of, Hmap.
Qed.


End EntryFacts.

(** ** More than one mode *)

Import Rc Fixtures.

Lemma mode_of_letter_selects c m : mode_of_letter c = Some m → m ≠ ModeNone.
Proof.
  destruct c as [[] [] [] [] [] [] [] []]; simpl; intros [= <-]; done.
Qed.

Lemma mode_option_proper c :
  is_mode_option c = true →
  Ascii.eqb c "?" = false ∧ Ascii.eqb c "h" = false ∧ ∃ m, mode_of_letter c = Some m.
Proof.
  unfold is_mode_option. intros [m Hm]%bool_decide_eq_true.
  split_and!; [..|by exists m]; apply Ascii.eqb_neq; intros ->; done.
Qed.

Lemma verdict_second_mode c post pre m :
  is_mode_option c = true → "?"%char ∉ pre → "h"%char ∉ pre →
  m ≠ ModeNone ∨ (1 ≤ mode_options pre)%nat →
  verdict m (pre ++ c :: post) = ModeAlreadySet.
Proof.
  intros Hc. destruct (mode_option_proper c Hc) as (Hq & Hh & mc & Hmc).
  revert m. induction pre as [|a pre IH]; intros m Hnq Hnh Hm.
  - destruct Hm as [Hm|Hm]; [|unfold mode_options in Hm; simpl in Hm; lia].
    simpl. rewrite Hq, Hh, Hmc. by destruct m.
  - apply not_elem_of_cons in Hnq as [Hqa Hnq], Hnh as [Hha Hnh].
    cbn [app verdict].
    assert (Ascii.eqb a "?" = false) as -> by (apply Ascii.eqb_neq; congruence).
    assert (Ascii.eqb a "h" = false) as -> by (apply Ascii.eqb_neq; congruence).
    destruct (mode_of_letter a) as [ma|] eqn:Hma.
    + destruct m; try done. apply IH; [done..|]. left.
      by apply (mode_of_letter_selects a).
    + apply IH; [done..|]. destruct Hm as [Hm|Hm]; [by left|right].
      unfold mode_options, is_mode_option in *. simpl in Hm.
      rewrite Hma in Hm. rewrite bool_decide_eq_false_2 in Hm; [done|].
      by intros [? ?].
Qed.

(** C10, as amended. When the options of the command line reach a second
    query mode option, no invalid option and no help option coming before
    it, [main] writes "Mode is already set" on stderr and returns 1; it
    writes nothing on stdout, creates no database and sends no query. *)
Theorem second_mode_option (env : Env) (argv : list string) pre c post :
  supplied argv = pre ++ c :: post →
  is_mode_option c = true →
  (1 ≤ mode_options pre)%nat →
  "?"%char ∉ pre → "h"%char ∉ pre →
  main env argv = Some (1%Z, mode_msg).
Proof.
  intros Hs Hc Hpre Hq Hh.
  destruct (parse_refines env argv) as (r & Hr & Hv).
  rewrite Hs, (verdict_second_mode c post pre ModeNone Hc Hq Hh) in Hv by (by right).
  simpl in Hv. subst r. unfold main. by rewrite Hr.
Qed.

(** A second mode option after a flag and a first mode option. *)
Lemma second_mode_option_witness :
  main env0 ["rc"; "-N"; "-f"; "/t/a.cpp:1:29"; "--find-references"; "foo"] =
  Some (1%Z, mode_msg).
Proof.
  apply (second_mode_option env0 _ ["N"; "f"]%char "r"%char []).
  - reflexivity.
  - reflexivity.
  - vm_compute. lia.
  - intros H. by repeat (apply elem_of_cons in H as [H|H]; [done|]); inversion H.
  - intros H. by repeat (apply elem_of_cons in H as [H|H]; [done|]); inversion H.
Defined.

(** C10, the claim as stated fails: two query mode options after [-h]. The
    run prints the help text and returns 0. *)
Lemma second_mode_option_after_help :
  mode_options (supplied ["rc"; "-h"; "-f"; "a"; "-r"; "b"]) = 2%nat ∧
  ∃ s, main env0 ["rc"; "-h"; "-f"; "a"; "-r"; "b"] = Some (0%Z, s) ∧
       stderr s = [] ∧ stdout s = map (fun l => [l]) (usage_lines "rc").
Proof. split; [reflexivity|]. eexists. split; [reflexivity|]. split; reflexivity. Qed.

(** ** Runs of [main] *)























(** ** Arguments, results and order *)

(** The invariant on a store of two files, through each operation. *)
Lemma store_symmetric_preserved_witness :
  SymbolStore.symmetric store0 ∧
  SymbolStore.symmetric (SymbolStore.remove 2 store0) ∧
  SymbolStore.symmetric (SymbolStore.insertBatch 1 batch0 store0) ∧
  SymbolStore.symmetric (SymbolStore.sync [(1, batch0); (2, store0)] store0).
Proof.
  assert (SymbolStore.symmetric store0) as H0
    by (apply (bool_decide_unpack _); vm_compute; exact I).
  destruct (store_symmetric_preserved store0 H0) as (Hr & Hi & Hs).
  split; [exact H0|]. split; [apply Hr|]. split; [apply Hi|apply Hs].
Defined.

(** File [5] is new to a project that has visited file [3]; the job is
    named by a 64 bit id whose low 32 bits are [7]. *)
Lemma visitFile_once_witness :
  ∃ p', Project.visitFile 5 (2 ^ 32 + 7) project0 = Some (true, p') ∧
        Project.mVisitedFiles p' = {[5]} ∪ Project.mVisitedFiles project0 ∧
        ∀ id', Project.visitFile 5 id' p' = Some (false, p').
Proof.
  destruct (visitFile_once 5 (2 ^ 32 + 7) project0 (Project.mkJobData 0 (Some 1%positive))
              1%positive (Project.mkIndexerJob ∅) eq_refl eq_refl eq_refl)
    as (p' & Hv & Hs & _ & H2).
  exists p'. split; [|by split].
  rewrite Hv. do 2 f_equal.
Defined.

(** C2, as amended. In the five modes that take a location, a database
    is asked at the location the argument parses to when its file id is
    not zero; when it is zero, follow-symbol, find-references, find-super
    and find-subs ask at every location [findSymbol] gives for the
    argument, and what they print is the union of the answers, while
    all-references asks nothing, prints nothing and writes "Invalid arg". *)
Theorem argument_resolution (env : Env) (o : Opts) (db : Database) (s : Sys) :
  takes_location (mode o) = true →
  (run_mode env o db s).2 =
    write (mode_lines env o db) (complaint db (mode o) (arg o))
          (asked db (mode o) (arg o)) s ∧
  (∀ e, e ∈ concat (mode_lines env o db) ↔
        ∃ l, l ∈ answer db (mode o) (arg o) ∧
             e = Output.printLocationImpl env l db (flags o)) ∧
  (mode o ≠ AllReferences →
     answer db (mode o) (arg o) = resolved db (mode o) (arg o) ∧
     complaint db (mode o) (arg o) = []) ∧
  (mode o = AllReferences →
     if isValid (createLocation db (arg o))
     then answer db (mode o) (arg o) = resolved db (mode o) (arg o) ∧
          complaint db (mode o) (arg o) = []
     else mode_lines env o db = [] ∧ asked db (mode o) (arg o) = [] ∧
          complaint db (mode o) (arg o) = ["Invalid arg " +:+ arg o]).
Proof.
  intros Hm. split_and!.
  - by rewrite run_mode_write.
  - intros e. apply mode_lines_entries. by destruct (mode o).
  - intros Hne. by destruct (mode o).
  - intros Hall. unfold mode_lines, answer, resolved, complaint, asked. cbv zeta.
    rewrite Hall. simpl. by destruct (isValid (createLocation db (arg o))).
Qed.

(** Find-references on the name [foo]. *)
Lemma argument_resolution_witness :
  takes_location (mode references_foo) = true ∧
  (run_mode env0 references_foo db0 Sys0).2 =
    write (mode_lines env0 references_foo db0)
          (complaint db0 References "foo") (asked db0 References "foo") Sys0.
Proof.
  split; [reflexivity|].
  apply (argument_resolution env0 references_foo db0 Sys0). reflexivity.
Defined.

(** C2, the claim as stated fails for all-references: the name [foo] has
    locations with references, yet nothing is printed and no query is
    sent. *)
Lemma all_references_by_name :
  isValid (createLocation db0 "foo") = false ∧
  resolved db0 AllReferences "foo" = [declFoo; callFoo; declFoo; callFoo] ∧
  main env0 ["rc"; "-a"; "foo"] =
    Some (0%Z, mkSys [] ["Invalid arg foo"] ["/t/.rtags.db"] []).
Proof. split_and!; reflexivity. Qed.

(** C3, at the failing input: no mode is selected, a database file is found
    but does not open, and [main] returns 0 without a message. *)
Lemma no_mode_closed_database :
  verdict ModeNone (supplied ["rc"]) = Selected ModeNone ∧
  default_dbPaths env_closed Opts0 = ["/t/.rtags.db"] ∧
  isOpened (create env_closed None "/t/.rtags.db") = false ∧
  main env_closed ["rc"] = Some (0%Z, mkSys [] [] ["/t/.rtags.db"] []) ∧
  fst <$> main env0 ["rc"] = Some 1%Z.
Proof. split_and!; reflexivity. Qed.

(** C4, as amended. When the argument parses to a location, follow-symbol
    and find-super write at most one line for a database: none when the
    database answers with the invalid location, else the answer. When it
    does not, they write the valid answers for all the locations of the
    name. *)
Theorem single_result_modes (env : Env) (o : Opts) (db : Database) (s : Sys) :
  mode o = FollowSymbol ∨ mode o = FindSuper →
  let loc := createLocation db (arg o) in
  let target := match mode o with
                | FindSuper => findSuper db loc
                | _ => followLocation db loc
                end in
  let entry := fun l => Output.printLocationImpl env l db (flags o) in
  stdout (run_mode env o db s).2 =
    stdout s ++
    (if isValid loc
     then if isValid target then [[entry target]] else []
     else lines_of (flags o)
            (map entry (concat (map (query db (mode o)) (findSymbol db (arg o)))))) ∧
  (isValid loc = true →
   (length (stdout (run_mode env o db s).2) ≤ length (stdout s) + 1)%nat).
Proof.
  intros Hm loc target entry. rewrite run_mode_write. simpl.
  assert (mode_lines env o db =
          if isValid loc
          then if isValid target then [[entry target]] else []
          else lines_of (flags o)
                 (map entry (concat (map (query db (mode o)) (findSymbol db (arg o))))))
    as ->.
  { unfold mode_lines, printed, answer, resolved, target, loc. cbv zeta.
    destruct Hm as [-> | ->]; destruct (isValid (createLocation db (arg o)));
      simpl; try done; by case_match. }
  split; [done|]. intros ->. rewrite length_app.
  destruct (isValid target); simpl; lia.
Qed.

(** Follow-symbol at the call of [foo]. *)
Lemma single_result_modes_witness :
  stdout (run_mode env0 follow_call db0 Sys0).2 = [["/t/a.cpp:1:5"]].
Proof.
  destruct (single_result_modes env0 follow_call db0 Sys0) as [H _]; [by left|].
  rewrite H. reflexivity.
Defined.

(** C4, the claim as stated fails: follow-symbol on a name with two
    locations writes two lines. *)
Lemma follow_by_name_two_lines :
  findSymbol db0 "foo" = [callFoo; callBar] ∧
  main env0 ["rc"; "-N"; "-f"; "foo"] =
    Some (0%Z, mkSys [["/t/a.cpp:1:5"]; ["/t/a.cpp:1:5"]] [] ["/t/.rtags.db"]
                     [(QFollowLocation, callFoo); (QFollowLocation, callBar)]).
Proof. split; reflexivity. Qed.

(** List-symbols writes its names sorted, whatever the flags. *)
Lemma list_symbols_always_sorted (env : Env) (o : Opts) (db : Database) (s : Sys) :
  mode o = ListSymbols →
  stdout (run_mode env o db s).2 =
    stdout s ++ map (fun e => [e]) (qSort (listSymbols db (arg o))) ∧
  Sorted String.le (qSort (listSymbols db (arg o))) ∧
  qSort (listSymbols db (arg o)) ≡ₚ listSymbols db (arg o).
Proof.
  intros Hm. rewrite run_mode_write. unfold mode_lines. rewrite Hm.
  split_and!; [done | apply qSort_sorted | apply qSort_Permutation].
Qed.

(** [printLocations] sorts its entries when the sort-output flag is set and
    keeps their order when it is not. *)
Lemma location_lists_follow_flag (flags : N) (out : list string) :
  concat (lines_of flags out) =
  if Output.truthy (N.land flags Output.SortOutput) then qSort out else out.
Proof.
  unfold lines_of.
  destruct (Output.truthy (N.land flags Output.SeparateLocationsBySpace));
    simpl; by rewrite ?app_nil_r, ?concat_singletons.
Qed.

(** C6, at the failing input: list-symbols without the sort-output flag.
    The names come back from the database as [foo()], [bar()] and are
    written sorted. The files query, for its part, writes the paths in the
    order of the store when the flag is set. *)
Lemma list_symbols_sorted_without_flag :
  parse env0 ["rc"; "-l"] = Some (Parsed (mkOpts ListSymbols 0 EmptyString [] None)) ∧
  listSymbols db0 EmptyString = ["foo()"; "bar()"] ∧
  main env0 ["rc"; "-l"] =
    Some (0%Z, mkSys [["bar()"]; ["foo()"]] [] ["/t/.rtags.db"] []) ∧
  main env0 ["rc"; "-o"; "-P"] =
    Some (0%Z, mkSys [["/t/b.cpp"]; ["/t/a.cpp"]; ["/t/a.h"]] [] ["/t/.rtags.db"] []).
Proof. split_and!; reflexivity. Qed.

(** C7. The files query writes one line for each stored path that contains
    the argument, in the order of the store and nothing else; each line is
    the path after the root prefix. With an empty argument every stored
    path is written. *)
Theorem files_query (env : Env) (o : Opts) (db : Database) (s : Sys) :
  mode o = Files →
  ∃ emitted,
    (run_mode env o db s).2 =
      write (map (fun p => [files_root o db +:+ p]) emitted) [] [] s ∧
    emitted = List.filter (fun p => contains p (arg o)) (readFiles db) ∧
    (∀ p, p ∈ emitted ↔ p ∈ readFiles db ∧ is_substring (arg o) p) ∧
    (arg o = EmptyString → emitted = readFiles db).
Proof.
  intros Hm. exists (List.filter (fun p => contains p (arg o)) (readFiles db)).
  split_and!.
  - rewrite run_mode_write. unfold mode_lines, complaint, asked, files_root.
    rewrite Hm. cbv zeta. simpl. rewrite files_filter.
    by destruct (Output.truthy (N.land (flags o) Output.PathsRelativeToRoot)).
  - done.
  - intros p. rewrite list_elem_of_In, filter_In, <- list_elem_of_In.
    by rewrite contains_spec.
  - intros ->. induction (readFiles db) as [|p ps IH]; [done|].
    simpl. by rewrite contains_empty, IH.
Qed.

(** The files query for the paths that contain [a.]. *)
Lemma files_query_witness :
  mode files_a = Files ∧
  (run_mode env0 files_a db0 Sys0).2 = mkSys [["/t/a.cpp"]; ["/t/a.h"]] [] [] [].
Proof.
  split; [reflexivity|].
  destruct (files_query env0 files_a db0 Sys0) as (emitted & -> & -> & _);
    [reflexivity|].
  reflexivity.
Defined.

(** * Further properties

    ** The files a project has visited *)

Section VisitedFiles.
Import Project.

Lemma elem_of_ascending (s : gset N) (x : N) : x ∈ ascending s ↔ x ∈ s.
Proof. unfold ascending. by rewrite merge_sort_Permutation, elem_of_elements. Qed.

Lemma ascending_NoDup (s : gset N) : NoDup (ascending s).
Proof. unfold ascending. rewrite merge_sort_Permutation. apply NoDup_elements. Qed.

Lemma ascending_sorted (s : gset N) : StronglySorted N.le (ascending s).
Proof. apply Sorted_StronglySorted; [apply _|]. apply (Sorted_merge_sort _). Qed.

Lemma ascending_length (s : gset N) : length (ascending s) = size s.
Proof. unfold ascending. by rewrite merge_sort_Permutation. Qed.

(** A path found after the loop was stored by a turn of the loop, or was
    there before. *)
Lemma visitedFiles_fold (path : N → string) (l : list N) (m : gmap string N) (pth : string) (f : N) :
  foldl (fun ret fileId => <[path fileId := fileId]> ret) m l !! pth = Some f →
  (f ∈ l ∧ path f = pth) ∨ m !! pth = Some f.
Proof.
  revert m. induction l as [|x l IH]; intros m; simpl; [auto|].
  intros [[Hin Hp]|H]%IH.
  - left. split; [by right|done].
  - destruct (decide (path x = pth)) as [<-|Hne].
    + rewrite lookup_insert_eq in H. injection H as <-. left. split; [by left|done].
    + rewrite lookup_insert_ne in H by done. by right.
Qed.

Lemma visitedFiles_fold_key (path : N → string) (l : list N) (m : gmap string N) (pth : string) :
  (∃ g, g ∈ l ∧ path g = pth) ∨ is_Some (m !! pth) →
  is_Some (foldl (fun ret fileId => <[path fileId := fileId]> ret) m l !! pth).
Proof.
  revert m. induction l as [|x l IH]; intros m; simpl.
  - intros [(g & Hg & _)|H]; [by apply elem_of_nil in Hg|done].
  - intros H. apply IH. destruct (decide (path x = pth)) as [<-|Hne].
    + right. rewrite lookup_insert_eq. eauto.
    + rewrite lookup_insert_ne by done.
      destruct H as [(g & Hg & Hp)|H]; [|by right].
      apply elem_of_cons in Hg as [->|Hg]; [done|]. left. eauto.
Qed.

(** In an ascending walk the entry of a path is the greatest file that has
    the path. *)
Lemma visitedFiles_fold_greatest (path : N → string) (l : list N) (m : gmap string N) pth f :
  StronglySorted N.le l →
  foldl (fun ret fileId => <[path fileId := fileId]> ret) m l !! pth = Some f →
  ∀ g, g ∈ l → path g = pth → g ≤ f.
Proof.
  intros Hs. revert m. induction Hs as [|x l Hs IH Hx]; intros m; simpl.
  - intros _ g Hg. by apply elem_of_nil in Hg.
  - intros H g Hg Hp. apply elem_of_cons in Hg as [->|Hg]; [|by apply (IH _ H)].
    apply visitedFiles_fold in H as [[Hin _]|H].
    + rewrite Forall_forall in Hx. by apply Hx.
    + rewrite Hp, lookup_insert_eq in H. by injection H as <-.
Qed.

Lemma visitedFiles_fold_size (path : N → string) (l : list N) (m : gmap string N) :
  NoDup l →
  (∀ f1 f2, f1 ∈ l → f2 ∈ l → path f1 = path f2 → f1 = f2) →
  (∀ x, x ∈ l → m !! path x = None) →
  size (foldl (fun ret fileId => <[path fileId := fileId]> ret) m l) = (size m + length l)%nat.
Proof.
  intros Hnd. revert m. induction Hnd as [|x l Hx Hnd IH]; intros m Hinj Hm; simpl; [lia|].
  rewrite IH.
  - rewrite map_size_insert_None by (apply Hm; by left). lia.
  - intros f1 f2 H1 H2. apply Hinj; by right.
  - intros y Hy. rewrite lookup_insert_ne; [apply Hm; by right|].
    intros Hp. apply Hx. by rewrite (Hinj x y) by (by left || by right || done).
Qed.

Lemma visitedFiles_complete (path : N → string) (p : State) (f : N) :
  f ∈ mVisitedFiles p →
  ∃ f', visitedFiles path p !! path f = Some f' ∧
        f' ∈ mVisitedFiles p ∧ path f' = path f.
Proof.
  unfold visitedFiles. intros Hf.
  destruct (visitedFiles_fold_key path (ascending (mVisitedFiles p)) ∅ (path f))
    as [f' Hf'].
  { left. exists f. by rewrite elem_of_ascending. }
  exists f'. split; [done|].
  apply visitedFiles_fold in Hf' as [[Hin Hp]|H]; [|by rewrite lookup_empty in H].
  by rewrite elem_of_ascending in Hin.
Qed.

(** X1. The map of visited files holds visited files only, each under its
    own path, and has an entry for the path of every visited file. Where
    visited files share a path, the entry is the greatest of them. *)
Theorem visitedFiles_sound_complete (path : N → string) (p : State) :
  (∀ pth f, visitedFiles path p !! pth = Some f →
            f ∈ mVisitedFiles p ∧ path f = pth) ∧
  (∀ f, f ∈ mVisitedFiles p →
        ∃ f', visitedFiles path p !! path f = Some f' ∧
              f' ∈ mVisitedFiles p ∧ path f' = path f) ∧
  (∀ f f', f ∈ mVisitedFiles p →
           visitedFiles path p !! path f = Some f' → f ≤ f').
Proof.
  split_and!; [|apply visitedFiles_complete|].
  - unfold visitedFiles. intros pth f H.
    apply visitedFiles_fold in H as [[Hin Hp]|H]; [|by rewrite lookup_empty in H].
    by rewrite elem_of_ascending in Hin.
  - unfold visitedFiles. intros f f' Hf H.
    apply (visitedFiles_fold_greatest path _ _ _ _ (ascending_sorted _) H);
      [by apply elem_of_ascending|done].
Qed.

(** X2. When no two visited files share a path, every visited file is
    found under its path, and the map has as many entries as there are
    visited files. *)
Theorem visitedFiles_lookup (path : N → string) (p : State) :
  (∀ f1 f2, f1 ∈ mVisitedFiles p → f2 ∈ mVisitedFiles p →
            path f1 = path f2 → f1 = f2) →
  (∀ f, f ∈ mVisitedFiles p → visitedFiles path p !! path f = Some f) ∧
  size (visitedFiles path p) = size (mVisitedFiles p).
Proof.
  intros Hinj. split.
  - intros f Hf.
    destruct (visitedFiles_complete path p f Hf) as (f' & Hl & Hf' & Hp).
    by rewrite Hl, (Hinj f' f Hf' Hf Hp).
  - unfold visitedFiles. rewrite visitedFiles_fold_size.
    + by rewrite map_size_empty, ascending_length.
    + apply ascending_NoDup.
    + intros f1 f2 ?%elem_of_ascending ?%elem_of_ascending. by apply Hinj.
    + intros x _. apply lookup_empty.
Qed.
End VisitedFiles.

(** The map of a project that visited the files [3] and [4], which have
    different paths. *)
Lemma visitedFiles_lookup_witness :
  Project.visitedFiles Fixtures.path0 (Project.mkState {[ 3; 4 ]} ∅ ∅) !! "/t/b.cpp"%string
    = Some 4 ∧
  size (Project.visitedFiles Fixtures.path0 (Project.mkState {[ 3; 4 ]} ∅ ∅)) = 2%nat.
Proof.
  destruct (visitedFiles_lookup Fixtures.path0 (Project.mkState {[ 3; 4 ]} ∅ ∅)) as [H1 H2].
  - intros f1 f2 H1 H2. simpl in H1, H2.
    apply elem_of_union in H1 as [H1|H1]; apply elem_of_singleton in H1 as ->;
      apply elem_of_union in H2 as [H2|H2]; apply elem_of_singleton in H2 as ->;
      intros H; first [reflexivity | discriminate H].
  - split; [apply (H1 4); simpl; apply elem_of_union_r, elem_of_singleton; reflexivity|].
    rewrite H2. reflexivity.
Defined.

(** Two visited files with one path: the entry is the greater id, which the
    loop stores last. *)
Lemma visitedFiles_shared_path :
  Project.visitedFiles (fun _ => "/t/a.cpp"%string) (Project.mkState {[ 4; 5 ]} ∅ ∅)
    = {[ "/t/a.cpp"%string := 5 ]}.
Proof. apply (bool_decide_unpack _). vm_compute. exact I. Qed.

Section VisitFiles.
Import Project.

(** A call of [visitFile] keeps the jobs and the addresses of the heap. *)
Lemma visitFile_frame fileId id p b p' :
  visitFile fileId id p = Some (b, p') →
  mJobs p' = mJobs p ∧ dom (heap p') = dom (heap p) ∧
  mVisitedFiles p' = {[fileId]} ∪ mVisitedFiles p ∧
  b = bool_decide (fileId ∉ mVisitedFiles p).
Proof.
  unfold visitFile. case_decide as Hin.
  - intros [= <- <-]. split_and!; [done|done|set_solver|].
    symmetry. apply bool_decide_eq_false_2. by intros Hc.
  - repeat case_match; try done. intros [= <- <-]. simpl.
    split_and!; [done| |done|by rewrite bool_decide_eq_true_2].
    rewrite dom_insert_L. assert (p0 ∈ dom (heap p)) by (by apply elem_of_dom).
    set_solver.
Qed.

Lemma running_frame p p' id :
  mJobs p' = mJobs p → dom (heap p') = dom (heap p) → running p id → running p' id.
Proof.
  intros Hj Hd (d & j & ij & H1 & H2 & H3). unfold running. rewrite Hj.
  assert (j ∈ dom (heap p')) as [ij' ?]%elem_of_dom
    by (rewrite Hd; by apply elem_of_dom).
  eauto 10.
Qed.

Lemma visitFile_running fileId id p :
  running p id → ∃ b p', visitFile fileId id p = Some (b, p').
Proof.
  intros (d & j & ij & H1 & H2 & H3).
  destruct (decide (fileId ∈ mVisitedFiles p)) as [Hin|Hnin].
  - exists false, p. by apply visitFile_seen.
  - eexists _, _. by apply (visitFile_fresh _ _ _ d j ij).
Qed.

(** X3. A run of [visitFile] calls by running jobs goes through; the
    files of the calls are visited afterwards, the jobs are the same, and
    [true] is returned once for each file that was not visited before,
    however often and by whichever jobs it is asked for. *)
Theorem visitFiles_grants_once (calls : list (N * N)) (p : State) :
  (∀ c, c ∈ calls → running p c.2) →
  ∃ bs p', visitFiles calls p = Some (bs, p') ∧
    length bs = length calls ∧
    mVisitedFiles p' = list_to_set calls.*1 ∪ mVisitedFiles p ∧
    mJobs p' = mJobs p ∧
    granted bs = size (list_to_set calls.*1 ∖ mVisitedFiles p : gset N).
Proof.
  revert p. induction calls as [|[fileId jid] calls IH]; intros p Hrun.
  - exists [], p. simpl. split_and!; try done; [set_solver|].
    unfold granted. simpl. symmetry. apply size_empty_iff. set_solver.
  - destruct (visitFile_running fileId jid p) as (b & p1 & Hv).
    { apply (Hrun (fileId, jid)). left. }
    destruct (visitFile_frame _ _ _ _ _ Hv) as (Hj & Hd & Hs & Hb).
    destruct (IH p1) as (bs & p' & Hvs & Hlen & Hs' & Hj' & Hg).
    { intros c Hc. apply (running_frame p); [done..|]. apply Hrun. by right. }
    exists (b :: bs), p'. simpl. rewrite Hv, Hvs.
    split_and!; [done|by rewrite Hlen|rewrite Hs', Hs; set_solver|congruence|].
    unfold granted in *. simpl. rewrite Hs in Hg.
    destruct (decide (fileId ∈ mVisitedFiles p)) as [Hin|Hnin].
    + rewrite Hb, bool_decide_eq_false_2 by (by intros Hc). simpl. rewrite Hg.
      f_equal. set_solver.
    + rewrite Hb, bool_decide_eq_true_2 by done. simpl. rewrite Hg.
      transitivity (size ({[fileId]} ∪
                          (list_to_set calls.*1 ∖ ({[fileId]} ∪ mVisitedFiles p)) : gset N)).
      * pose proof (size_union (C:=gset N) {[fileId]}
                      (list_to_set calls.*1 ∖ ({[fileId]} ∪ mVisitedFiles p))) as Hu.
        rewrite Hu by set_solver. rewrite size_singleton. lia.
      * f_equal. apply set_eq. intros x. destruct (decide (x = fileId)); set_solver.
Qed.
End VisitFiles.

(** Four calls by the job with key [7] of a project that has visited file
    [3], two of them under a 64 bit id whose low 32 bits are [7]: the files
    [5] and [9] are granted, once each. *)
Lemma visitFiles_grants_once_witness :
  ∃ bs p', Project.visitFiles [(5, 7); (3, 7); (5, 2 ^ 32 + 7); (9, 2 ^ 32 + 7)]
                              Fixtures.project0 = Some (bs, p') ∧
    Project.granted bs = 2%nat.
Proof.
  destruct (visitFiles_grants_once [(5, 7); (3, 7); (5, 2 ^ 32 + 7); (9, 2 ^ 32 + 7)]
                                   Fixtures.project0)
    as (bs & p' & Hrun & _ & _ & _ & Hg).
  - intros c Hc.
    exists (Project.mkJobData 0 (Some 1%positive)), 1%positive, (Project.mkIndexerJob ∅).
    repeat (apply elem_of_cons in Hc as [->|Hc]; [repeat split; reflexivity|]).
    by apply elem_of_nil in Hc.
  - exists bs, p'. split; [exact Hrun|]. rewrite Hg.
    apply (bool_decide_unpack _). vm_compute. exact I.
Defined.

Section VisitOutcomes.
Import Project.

(** X4. The three outcomes of [visitFile]. It returns [false], and changes
    nothing, exactly for a file already visited, whatever the job. For a
    new file it returns [true] when the job is running, and then the
    project is indexing, the job id, cut to 32 bits, is in that job's
    visited set and no other job is touched. For a new file and a job that
    is not running an assertion fails. *)
Theorem visitFile_outcomes (fileId id : N) (p : State) :
  (fileId ∈ mVisitedFiles p ↔ visitFile fileId id p = Some (false, p)) ∧
  ((fileId ∉ mVisitedFiles p) ∧ ¬ running p id ↔ visitFile fileId id p = None) ∧
  ((fileId ∉ mVisitedFiles p) ∧ running p id ↔
   ∃ p', visitFile fileId id p = Some (true, p')) ∧
  (∀ p', visitFile fileId id p = Some (true, p') →
     isIndexing p = true ∧ isIndexing p' = true ∧
     ∃ d j ij ij', mJobs p !! to_uint32 id = Some d ∧ job d = Some j ∧
       heap p !! j = Some ij ∧ heap p' !! j = Some ij' ∧
       visited ij' = {[to_uint32 id]} ∪ visited ij ∧
       ∀ j', j' ≠ j → heap p' !! j' = heap p !! j').
Proof.
  assert (∀ p', visitFile fileId id p = Some (true, p') →
     (fileId ∉ mVisitedFiles p) ∧
     ∃ d j ij, mJobs p !! to_uint32 id = Some d ∧ job d = Some j ∧
       heap p !! j = Some ij ∧
       p' = mkState ({[fileId]} ∪ mVisitedFiles p) (mJobs p)
                    (<[j := mkIndexerJob ({[to_uint32 id]} ∪ visited ij)]> (heap p)))
    as Htrue.
  { intros p'. unfold visitFile. case_decide as Hin; [intros [= ?]; done|].
    destruct (mJobs p !! to_uint32 id) as [d|] eqn:Hd; [|done].
    destruct (job d) as [j|] eqn:Hj; [|done].
    destruct (heap p !! j) as [ij|] eqn:Hij; [|done].
    intros [= <-]. split; [done|]. eauto 10. }
  split_and!.
  - split; [apply visitFile_seen|].
    unfold visitFile. case_decide as Hin; [done|].
    repeat case_match; done.
  - split.
    + intros [Hnin Hrun]. unfold visitFile. rewrite decide_False by done.
      destruct (mJobs p !! to_uint32 id) as [d|] eqn:Hd; [|done].
      destruct (job d) as [j|] eqn:Hj; [|done].
      destruct (heap p !! j) as [ij|] eqn:Hij; [|done].
      exfalso. apply Hrun. unfold running. eauto 10.
    + intros Hnone. split.
      * intros Hin. by rewrite visitFile_seen in Hnone.
      * intros (d & j & ij & Hd & Hj & Hij).
        destruct (decide (fileId ∈ mVisitedFiles p)) as [Hin|Hnin].
        -- by rewrite visitFile_seen in Hnone.
        -- by rewrite (visitFile_fresh _ _ _ d j ij) in Hnone.
  - split.
    + intros [Hnin (d & j & ij & Hd & Hj & Hij)].
      eexists. by apply (visitFile_fresh _ _ _ d j ij).
    + intros [p' Hp']. apply Htrue in Hp' as [Hnin (d & j & ij & Hd & Hj & Hij & _)].
      split; [done|]. unfold running. eauto 10.
  - intros p' Hp'. apply Htrue in Hp' as [Hnin (d & j & ij & Hd & Hj & Hij & ->)].
    assert (mJobs p ≠ ∅) as Hne
      by (intros He; rewrite He in Hd; by rewrite lookup_empty in Hd).
    unfold isIndexing. simpl. rewrite bool_decide_eq_false_2 by done.
    split_and!; [done|done|].
    exists d, j, ij, (mkIndexerJob ({[to_uint32 id]} ∪ visited ij)).
    split_and!; [done|done|done|by rewrite lookup_insert_eq|done|].
    intros j' Hj'. by rewrite lookup_insert_ne.
Qed.
End VisitOutcomes.

(** ** The option loop, turn by turn *)

Section LoopOpts.
Import Rc.
Context (env : Env) (argv : list string).

Lemma Return_inj a s b t : Return a s = Return b t → a = b ∧ s = t.
Proof. intros H. by injection H. Qed.

Lemma Continue_inj st st' : Continue st = Continue st' → st = st'.
Proof. intros H. by injection H. Qed.

(** The three ways the option loop returns from [main]. *)
Lemma loop_body_return st status s :
  loop_body env argv st = Return status s →
  (status = 0%Z ∧ s = help_out argv) ∨
  (status = 1%Z ∧ s = mode_msg) ∨
  (status = 1%Z ∧ ∃ w, s = invalid_out argv w).
Proof.
  intros Hr.
  destruct (getopt argv (scanner st)) as [[[c|] oa] g] eqn:Heq.
  - destruct (loop_body_spec env argv _ _ _ _ Heq)
      as [(-> & _)|[(-> & _)|
          [(Hq & Hh & m & Hm & Hcase)|(Hq & Hh & Hm & o' & Hc & _)]]].
    + unfold loop_body in Hr. rewrite Heq in Hr. cbv beta iota zeta in Hr.
      apply Return_inj in Hr as [<- <-]. right. right. split; [done|]. by eexists.
    + unfold loop_body in Hr. rewrite Heq in Hr. cbv beta iota zeta in Hr.
      apply Return_inj in Hr as [<- <-]. left. split; [done|]. by rewrite foldM_puts.
    + destruct (mode (opts st)).
      * destruct Hcase as (g' & a & Hc & _). congruence.
      * rewrite Hcase in Hr. apply Return_inj in Hr as [<- <-]. by right; left.
      * rewrite Hcase in Hr. apply Return_inj in Hr as [<- <-]. by right; left.
      * rewrite Hcase in Hr. apply Return_inj in Hr as [<- <-]. by right; left.
      * rewrite Hcase in Hr. apply Return_inj in Hr as [<- <-]. by right; left.
      * rewrite Hcase in Hr. apply Return_inj in Hr as [<- <-]. by right; left.
      * rewrite Hcase in Hr. apply Return_inj in Hr as [<- <-]. by right; left.
      * rewrite Hcase in Hr. apply Return_inj in Hr as [<- <-]. by right; left.
      * rewrite Hcase in Hr. apply Return_inj in Hr as [<- <-]. by right; left.
    + congruence.
  - by rewrite (loop_body_leave _ _ _ _ _ Heq) in Hr.
Qed.

(** What a turn of the loop that goes on does to the flags, to the list of
    database paths and to the scanner. *)
Lemma loop_body_opts st c oa g st' :
  getopt argv (scanner st) = (Some c, oa, g) →
  loop_body env argv st = Continue st' →
  flags (opts st') = N.lor (flags (opts st)) (flag_of_letter c) ∧
  (EmptyString ∉ dbPaths (opts st) → EmptyString ∉ dbPaths (opts st')) ∧
  steps_over argv g (scanner st').
Proof.
  intros Heq Hc. split_and!.
  - revert Hc. unfold loop_body. rewrite Heq.
    destruct c as [[] [] [] [] [] [] [] []]; cbv beta iota zeta;
      try discriminate;
      unfold SET_MODE, optional_arg, add_db; repeat case_match;
      try discriminate;
      intros <-%Continue_inj; simpl; by rewrite ?N.lor_0_r.
  - revert Hc. unfold loop_body. rewrite Heq.
    destruct c as [[] [] [] [] [] [] [] []]; cbv beta iota zeta;
      try discriminate;
      unfold SET_MODE, optional_arg, add_db; repeat case_match;
      try discriminate;
      intros <-%Continue_inj; simpl; try (intros ?; assumption).
    all: intros Hn [Hin|Hin%list_elem_of_singleton]%elem_of_app; [done|];
      match goal with H : String.eqb _ _ = false |- _ =>
                        apply String.eqb_neq in H; congruence end.
  - destruct (loop_body_spec env argv _ _ _ _ Heq)
      as [(-> & s & Hr & ?)|[(-> & s & Hr & ?)|
          [(Hq & Hh & m & Hm & Hcase)|(Hq & Hh & Hm & o' & Hr & _)]]];
      try congruence.
    + destruct (mode (opts st)); try congruence.
      destruct Hcase as (g' & a & Hr & Hs). rewrite Hr in Hc. by apply Continue_inj in Hc as <-.
    + rewrite Hr in Hc. apply Continue_inj in Hc as <-. by left.
Qed.

(** The flags the loop ends with are those of the options scanned. *)
Lemma loop_flags_exact f st o :
  (Getopt.remaining argv (scanner st) < f)%nat →
  loop f env argv st = Some (Parsed o) →
  flags o = foldl (fun fl c => N.lor fl (flag_of_letter c)) (flags (opts st))
                  (scan f argv (scanner st)) ∧
  (EmptyString ∉ dbPaths (opts st) → EmptyString ∉ dbPaths o).
Proof.
  revert st. induction f as [|f IH]; intros st Hf; [lia|]. simpl.
  destruct (loop_body env argv st) as [st'| |] eqn:Hb; [| |done].
  - destruct (getopt argv (scanner st)) as [[[c|] oa] g] eqn:Heq.
    + destruct (loop_body_opts _ _ _ _ _ Heq Hb) as (Hfl & Hdb & Hs).
      pose proof (getopt_long_decreases _ _ _ _ _ _ _ Heq) as Hdec.
      pose proof (steps_over_remaining _ _ _ Hs) as Hle.
      intros Hl. destruct (IH st') as [-> Hdb']; [lia|done|].
      rewrite (scan_steps_over _ _ _ _ Hs). simpl. rewrite Hfl. eauto.
    + by rewrite (loop_body_leave _ _ _ _ _ Heq) in Hb.
  - intros [= ->].
    destruct (getopt argv (scanner st)) as [[[c|] oa] g] eqn:Heq.
    + exfalso.
      destruct (loop_body_spec env argv _ _ _ _ Heq)
        as [(-> & s & Hr & ?)|[(-> & s & Hr & ?)|
            [(Hq & Hh & m & Hm & Hcase)|(Hq & Hh & Hm & o' & Hr & _)]]];
        try congruence.
      destruct (mode (opts st)); try congruence.
      destruct Hcase as (g' & a & Hr & Hs). congruence.
    + rewrite (loop_body_leave _ _ _ _ _ Heq) in Hb. injection Hb as <-.
      simpl. auto.
Qed.
End LoopOpts.

(** ** How a run ends *)

Section Returns.
Context (env : Env) (argv : list string).

Lemma loop_exited f st status s :
  loop f env argv st = Some (Exited status s) →
  (status = 0%Z ∧ s = help_out argv) ∨
  (status = 1%Z ∧ s = mode_msg) ∨
  (status = 1%Z ∧ ∃ w, s = invalid_out argv w).
Proof.
  revert st. induction f as [|f IH]; intros st; [done|]. simpl.
  destruct (loop_body env argv st) as [st'|o|status' s'] eqn:Hb.
  - apply IH.
  - done.
  - intros H. assert (status' = status ∧ s' = s) as [-> ->].
    { split; congruence. }
    by apply (loop_body_return env argv st).
Qed.

(** The loop over the databases when no mode is selected: it stops at the
    first database that opens. *)
Lemma each_db_none_exact argv0 o paths s :
  mode o = ModeNone →
  each_db env argv0 o paths s =
  if existsb (openable env o) paths
  then (1%Z, note_created (tried (until_open env o paths))
                          (write [] (no_mode_msgs argv0) [] s))
  else (0%Z, note_created (tried (until_open env o paths)) s).
Proof.
  intros Hm. revert s. induction paths as [|p paths IH]; intros s.
  - simpl. by rewrite note_created_nil.
  - cbn [each_db existsb until_open].
    destruct (String.eqb p EmptyString) eqn:Hp.
    + assert (openable env o p = false) as -> by (unfold openable; by rewrite Hp).
      cbn [orb]. rewrite IH. unfold tried. cbn [List.filter]. by rewrite Hp.
    + erewrite bind_run by apply opening_note.
      destruct (isOpened (create env (dbType o) p)) eqn:Hop; cbn [negb].
      * assert (openable env o p = true) as ->
          by (unfold openable; by rewrite Hp, Hop).
        cbn [orb]. rewrite Hm. unfold tried. cbn [List.filter]. rewrite Hp. cbn [negb].
        unfold no_mode_msgs, note_created, write, mbind, M_bind, eputs, mret, M_ret.
        cbn [fst snd stdout stderr created queried].
        by rewrite <- ?app_assoc, !app_nil_r.
      * assert (openable env o p = false) as ->
          by (unfold openable; by rewrite Hp, Hop).
        cbn [orb]. rewrite IH. unfold tried. cbn [List.filter]. rewrite Hp. cbn [negb].
        destruct (existsb (openable env o) paths); f_equal;
          unfold note_created, write; simpl; by rewrite <- !app_assoc.
Qed.
End Returns.

Section Exact.
Context (env : Env) (argv : list string).

Lemma loop_body_invalid st oa g :
  getopt argv (scanner st) = (Some "?"%char, oa, g) →
  loop_body env argv st =
  Return 1 (invalid_out argv (argv_at argv (Getopt.optind g))).
Proof. intros Heq. unfold loop_body. by rewrite Heq. Qed.

Lemma loop_body_help st oa g :
  getopt argv (scanner st) = (Some "h"%char, oa, g) →
  loop_body env argv st = Return 0 (help_out argv).
Proof.
  intros Heq. unfold loop_body. rewrite Heq. cbv beta iota zeta.
  by rewrite foldM_puts.
Qed.

Lemma loop_ends f st :
  (Getopt.remaining argv (scanner st) < f)%nat →
  ∃ r, loop f env argv st = Some r ∧
       ends argv (verdict (mode (opts st)) (scan f argv (scanner st))) r.
Proof.
  revert st. induction f as [|f IH]; intros st Hf; [lia|]. simpl.
  destruct (getopt argv (scanner st)) as [[[c|] oa] g] eqn:Heq.
  - pose proof (getopt_long_decreases _ _ _ _ _ _ _ Heq) as Hdec.
    destruct (loop_body_spec env argv _ _ _ _ Heq)
      as [(-> & _)|[(-> & _)|
          [(Hq & Hh & m & Hm & Hcase)|(Hq & Hh & Hm & o & -> & Hmo & _)]]].
    + rewrite (loop_body_invalid _ _ _ Heq). eexists. split; [done|].
      simpl. by eexists.
    + rewrite (loop_body_help _ _ _ Heq). eexists. split; [done|]. done.
    + apply Ascii.eqb_neq in Hq, Hh. cbn [verdict]. rewrite Hq, Hh, Hm.
      destruct (mode (opts st)) eqn:Emode;
        try (rewrite Hcase; eexists; split; [done|]; done).
      destruct Hcase as (g' & a & -> & Hs).
      rewrite <- (scan_steps_over argv f _ _ Hs).
      apply (IH (mkLoopState g' (set_arg (set_mode (opts st) m) a))).
      simpl. apply steps_over_remaining in Hs. lia.
    + apply Ascii.eqb_neq in Hq, Hh. cbn [verdict]. rewrite Hq, Hh, Hm, <- Hmo.
      apply (IH (mkLoopState g o)). simpl. lia.
  - rewrite (loop_body_leave _ _ _ _ _ Heq). eexists. split; [done|]. simpl. eauto.
Qed.
End Exact.

(** X6. What the options ask for decides how the option loop ends: the
    first of a help option, an invalid option and a second mode option
    makes [main] return at once, with the usage text on stdout and status
    0, with the usage text and the offending word on stderr and status 1,
    or with "Mode is already set" on stderr and status 1; no database is
    created and no query is sent. Otherwise the loop ends with the mode of
    the one mode option, or with none. *)
Theorem main_by_verdict (env : Env) (argv : list string) :
  match verdict ModeNone (supplied argv) with
  | Help => main env argv = Some (0%Z, help_out argv)
  | InvalidOption => ∃ w, main env argv = Some (1%Z, invalid_out argv w)
  | ModeAlreadySet => main env argv = Some (1%Z, mode_msg)
  | Selected m =>
      ∃ o, parse env argv = Some (Parsed o) ∧ mode o = m ∧
           main env argv = Some (run env argv o Sys0)
  end.
Proof.
  destruct (loop_ends env argv _ LoopState0 (initial_remaining argv))
    as (r & Hr & Hv).
  change (loop (S (Getopt.weight argv)) env argv LoopState0) with (parse env argv) in Hr.
  change (scan (S (Getopt.weight argv)) argv (scanner LoopState0))
    with (supplied argv) in Hv.
  unfold main. rewrite Hr.
  destruct (verdict (mode (opts LoopState0)) (supplied argv)) eqn:E;
    change (mode (opts LoopState0)) with ModeNone in E; rewrite E; simpl in Hv.
  - by subst r.
  - destruct Hv as [w ->]. by exists w.
  - by subst r.
  - destruct Hv as (o & -> & <-). by exists o.
Qed.

(** X5. A run that ends with status 1 has written nothing on stdout and
    sent no query, and has an error message on stderr; a run that ends
    with status 0 has nothing on stderr but the "Invalid arg" messages of
    all-references. There is no other status. *)
Theorem exit_status_and_streams (env : Env) (argv : list string) :
  ∃ status s, main env argv = Some (status, s) ∧
    (status = 0%Z ∨ status = 1%Z) ∧
    (status = 1%Z → stdout s = [] ∧ queried s = [] ∧ stderr s ≠ []) ∧
    (status = 0%Z →
       ∀ msg, msg ∈ stderr s →
         ∃ o, parse env argv = Some (Parsed o) ∧ mode o = AllReferences ∧
              msg = "Invalid arg " +:+ arg o).
Proof.
  destruct (parse_refines env argv) as (r & Hr & _). unfold main. rewrite Hr.
  destruct r as [o|status s].
  - destruct (run env argv o Sys0) as [status s] eqn:Hrun. exists status, s.
    split; [done|]. unfold run in Hrun.
    destruct (default_dbPaths env o) as [|p ps] eqn:Hdb.
    { apply pair_equal_spec in Hrun as [<- <-]. split_and!; [by right| |].
      - intros _. split_and!; [reflexivity..|]. intros H. discriminate H.
      - intros H. discriminate H. }
    destruct (decide (mode o = ModeNone)) as [Hm|Hm].
    + rewrite each_db_none_exact in Hrun by done.
      destruct (existsb (openable env o) (p :: ps));
        apply pair_equal_spec in Hrun as [<- <-].
      * split_and!; [by right| |intros H; discriminate H].
        intros _. split_and!; [reflexivity..|]. simpl.
        intros H. discriminate H.
      * split_and!; [by left|intros H; discriminate H|].
        intros _ msg Hin. simpl in Hin. by apply elem_of_nil in Hin.
    + rewrite each_db_selected in Hrun by done.
      apply pair_equal_spec in Hrun as [<- <-].
      split_and!; [by left|intros H; discriminate H|]. intros _ msg Hin. simpl in Hin.
      apply elem_of_concat in Hin as (c & (db & -> & _)%list_elem_of_fmap & Hin).
      exists o. split; [done|]. unfold complaint in Hin.
      destruct (mode o); try (by apply elem_of_nil in Hin).
      destruct (isValid _); [by apply elem_of_nil in Hin|].
      apply list_elem_of_singleton in Hin. done.
  - exists status, s. split; [done|].
    destruct (loop_exited env argv _ _ _ _ Hr) as [[-> ->]|[[-> ->]|[-> [w ->]]]].
    + split_and!; [by left|intros H; discriminate H|].
      intros _ msg Hin. by apply elem_of_nil in Hin.
    + split_and!; [by right| |intros H; discriminate H].
      intros _. split_and!; [reflexivity..|]. intros H. discriminate H.
    + split_and!; [by right| |intros H; discriminate H].
      intros _. split_and!; [reflexivity..|]. intros H. discriminate H.
Qed.

(** ** The display flags *)

Section Flags.

Lemma flag_of_letter_cases c :
  (c = "n"%char ∧ flag_of_letter c = 2 ^ 0) ∨
  (c = "N"%char ∧ flag_of_letter c = 2 ^ 1) ∨
  (c = "S"%char ∧ flag_of_letter c = 2 ^ 3) ∨
  (c = "o"%char ∧ flag_of_letter c = 2 ^ 5) ∨
  (c ≠ "n"%char ∧ c ≠ "N"%char ∧ c ≠ "S"%char ∧ c ≠ "o"%char ∧ flag_of_letter c = 0).
Proof.
  destruct c as [[] [] [] [] [] [] [] []];
    first [ by left | by right; left | by right; right; left
          | by right; right; right; left
          | right; right; right; right; split_and!; [discriminate..|reflexivity] ].
Qed.

Lemma testbit_flags (l : list ascii) (a : N) (k : N) :
  N.testbit (foldl (fun fl c => N.lor fl (flag_of_letter c)) a l) k =
  N.testbit a k || existsb (fun c => N.testbit (flag_of_letter c) k) l.
Proof.
  revert a. induction l as [|c l IH]; intros a; simpl.
  - by rewrite orb_false_r.
  - by rewrite IH, N.lor_spec, orb_assoc.
Qed.

Lemma existsb_flag (l : list ascii) (c0 : ascii) (k : N) :
  flag_of_letter c0 = 2 ^ k →
  (∀ c, N.testbit (flag_of_letter c) k = true → c = c0) →
  existsb (fun c => N.testbit (flag_of_letter c) k) l = bool_decide (c0 ∈ l).
Proof.
  intros H0 Hk. induction l as [|c l IH]; simpl; [done|].
  rewrite IH. destruct (N.testbit (flag_of_letter c) k) eqn:Hb; simpl.
  - apply Hk in Hb as ->. symmetry. apply bool_decide_eq_true_2. left.
  - destruct (decide (c0 ∈ l)) as [Hin|Hnin].
    + rewrite !bool_decide_eq_true_2; [done|by right|done].
    + rewrite !bool_decide_eq_false_2; [done| |done].
      intros [->|?]%elem_of_cons; [|done].
      by rewrite H0, N.pow2_bits_true in Hb.
Qed.

Lemma flag_bit c k :
  N.testbit (flag_of_letter c) k = true →
  (c = "n"%char ∧ k = 0) ∨ (c = "N"%char ∧ k = 1) ∨
  (c = "S"%char ∧ k = 3) ∨ (c = "o"%char ∧ k = 5).
Proof.
  destruct (flag_of_letter_cases c)
    as [[-> ->]|[[-> ->]|[[-> ->]|[[-> ->]|(_ & _ & _ & _ & ->)]]]];
    rewrite ?N.pow2_bits_eqb, ?N.bits_0; try done;
    intros ->%N.eqb_eq; auto.
Qed.

Lemma flags_of_options (env : Env) (argv : list string) (o : Opts) :
  parse env argv = Some (Parsed o) →
  flags o = foldl (fun fl c => N.lor fl (flag_of_letter c)) 0 (supplied argv) ∧
  EmptyString ∉ dbPaths o.
Proof.
  intros Hp.
  destruct (loop_flags_exact env argv _ LoopState0 o (initial_remaining argv) Hp)
    as [Hf Hd].
  split; [done|]. apply Hd. simpl. by intros ?%elem_of_nil.
Qed.

Lemma flag_set (env : Env) (argv : list string) (o : Opts) c0 k :
  parse env argv = Some (Parsed o) →
  flag_of_letter c0 = 2 ^ k →
  Output.truthy (N.land (flags o) (2 ^ k)) = bool_decide (c0 ∈ supplied argv).
Proof.
  intros Hp H0. destruct (flags_of_options env argv o Hp) as [-> _].
  rewrite truthy_land_pow2, testbit_flags, N.bits_0. simpl.
  apply existsb_flag; [done|]. intros c Hb.
  destruct (flag_bit c k Hb) as [[-> ->]|[[-> ->]|[[-> ->]|[-> ->]]]];
    destruct (flag_of_letter_cases c0)
      as [[-> Hc]|[[-> Hc]|[[-> Hc]|[[-> Hc]|(_ & _ & _ & _ & Hc)]]]];
    try done; rewrite Hc in H0; vm_compute in H0; discriminate H0.
Qed.

(** X7. After the option loop each of the four display flags is set
    exactly when its option occurs among the options of the command line,
    wherever and however often, and no other bit of the flags is set. *)
Theorem display_flags (env : Env) (argv : list string) (o : Opts) :
  parse env argv = Some (Parsed o) →
  Output.truthy (N.land (flags o) Output.PathsRelativeToRoot)
    = bool_decide ("n"%char ∈ supplied argv) ∧
  Output.truthy (N.land (flags o) Output.NoContext)
    = bool_decide ("N"%char ∈ supplied argv) ∧
  Output.truthy (N.land (flags o) Output.SeparateLocationsBySpace)
    = bool_decide ("S"%char ∈ supplied argv) ∧
  Output.truthy (N.land (flags o) Output.SortOutput)
    = bool_decide ("o"%char ∈ supplied argv) ∧
  (∀ k, N.testbit (flags o) k = true → k = 0 ∨ k = 1 ∨ k = 3 ∨ k = 5).
Proof.
  intros Hp. split_and!.
  - by apply (flag_set env argv o "n"%char 0).
  - by apply (flag_set env argv o "N"%char 1).
  - by apply (flag_set env argv o "S"%char 3).
  - by apply (flag_set env argv o "o"%char 5).
  - intros k. destruct (flags_of_options env argv o Hp) as [-> _].
    rewrite testbit_flags, N.bits_0. simpl.
    intros (c & _ & Hb)%existsb_exists.
    destruct (flag_bit c k Hb) as [[_ ->]|[[_ ->]|[[_ ->]|[_ ->]]]]; auto.
Qed.

Lemma display_flags_witness :
  Output.truthy (N.land (flags (mkOpts FollowSymbol 34 "x" [] None)) Output.NoContext)
    = bool_decide ("N"%char ∈ supplied ["rc"; "-oN"; "-f"; "x"; "-o"]).
Proof.
  apply (display_flags env0 ["rc"; "-oN"; "-f"; "x"; "-o"]
           (mkOpts FollowSymbol 34 "x" [] None)).
  reflexivity.
Defined.
End Flags.

(** ** The databases of a run *)

Section Databases.
Context (env : Env).

Lemma tried_all (paths : list string) : EmptyString ∉ paths → tried paths = paths.
Proof.
  induction paths as [|p paths IH]; [done|].
  intros [Hp Hps]%not_elem_of_cons. unfold tried in *. simpl.
  assert (String.eqb p EmptyString = false) as -> by (apply String.eqb_neq; congruence).
  simpl. by rewrite IH.
Qed.

Lemma until_open_sub o (paths : list string) p :
  p ∈ until_open env o paths → p ∈ paths.
Proof.
  induction paths as [|q paths IH]; simpl; [done|].
  destruct (openable env o q).
  - intros ->%list_elem_of_singleton. left.
  - intros [->|?]%elem_of_cons; [left|right; auto].
Qed.

Lemma default_dbPaths_nonempty o :
  EmptyString ∉ dbPaths o → EmptyString ∉ default_dbPaths env o.
Proof.
  intros Hd. unfold default_dbPaths. destruct (dbPaths o) as [|p ps]; [|done].
  cbv zeta.
  set (d := if String.eqb (findRtagsDb env None) EmptyString && _ then _ else _).
  destruct (String.eqb d EmptyString) eqn:E.
  - by intros ?%elem_of_nil.
  - intros Hin%list_elem_of_singleton. rewrite <- Hin in E. discriminate E.
Qed.

(** X10. Several databases are worked off one after the other: the run
    over two lists of paths in a row is the run over the first list, then
    over the second from where the first ended, unless the first returned
    status 1. *)
Theorem each_db_app argv0 o ps1 ps2 s :
  each_db env argv0 o (ps1 ++ ps2) s =
  let r := each_db env argv0 o ps1 s in
  if (r.1 =? 1)%Z then r else each_db env argv0 o ps2 r.2.
Proof.
  revert s. induction ps1 as [|p ps1 IH]; intros s; [done|].
  cbn [app each_db]. destruct (String.eqb p EmptyString); [apply IH|].
  erewrite !bind_run by apply opening_note.
  destruct (isOpened (create env (dbType o) p)); cbn [negb]; [|apply IH].
  destruct (mode o) eqn:Hm;
    try (erewrite !bind_run by apply run_mode_write; apply IH).
  reflexivity.
Qed.
End Databases.

(** X9. After the option loop no database path is empty. [main] hands the
    paths to [Database::create] in their order, each once: all of them
    when a mode is selected, and only up to the first that opens when
    none is. *)
Theorem databases_created (env : Env) (argv : list string) (o : Opts) :
  parse env argv = Some (Parsed o) →
  (EmptyString ∉ default_dbPaths env o) ∧
  (∃ status s, main env argv = Some (status, s) ∧
     created s = match mode o with
                 | ModeNone => until_open env o (default_dbPaths env o)
                 | _ => default_dbPaths env o
                 end).
Proof.
  intros Hp. destruct (flags_of_options env argv o Hp) as [_ Hd].
  pose proof (default_dbPaths_nonempty env o Hd) as Hne. split; [done|].
  unfold main. rewrite Hp. unfold run.
  destruct (default_dbPaths env o) as [|p ps] eqn:Hdb.
  { eexists _, _. split; [reflexivity|]. by destruct (mode o). }
  destruct (decide (mode o = ModeNone)) as [Hm|Hm].
  - rewrite each_db_none_exact by done. rewrite Hm.
    rewrite tried_all by (intros H%until_open_sub; done).
    destruct (existsb _ _); eexists _, _; (split; [reflexivity|done]).
  - rewrite each_db_selected by done. rewrite tried_all by done.
    eexists _, _. split; [reflexivity|]. by destruct (mode o).
Qed.

(** Three directories given with [-d], of which the second has a database
    that opens. Without a mode the third is never handed to
    [Database::create]; with the files mode all three are, in order. *)
Lemma databases_created_witness :
  (∃ status s, main env_dirs ["rc"; "-d"; "/c"; "-d"; "/t"; "-d"; "/u"] = Some (status, s) ∧
     created s = ["/c/.rtags.db"; "/t/.rtags.db"]) ∧
  (∃ status s,
     main env_dirs ["rc"; "-d"; "/c"; "-d"; "/t"; "-d"; "/u"; "-P"] = Some (status, s) ∧
     created s = ["/c/.rtags.db"; "/t/.rtags.db"; "/u/.rtags.db"]).
Proof.
  split.
  - destruct (databases_created env_dirs ["rc"; "-d"; "/c"; "-d"; "/t"; "-d"; "/u"]
                (mkOpts ModeNone 0 EmptyString
                        ["/c/.rtags.db"; "/t/.rtags.db"; "/u/.rtags.db"] None))
      as (_ & status & s & Hmain & Hcreated); [reflexivity|].
    exists status, s. split; [exact Hmain|]. rewrite Hcreated. reflexivity.
  - destruct (databases_created env_dirs
                ["rc"; "-d"; "/c"; "-d"; "/t"; "-d"; "/u"; "-P"]
                (mkOpts Files 0 EmptyString
                        ["/c/.rtags.db"; "/t/.rtags.db"; "/u/.rtags.db"] None))
      as (_ & status & s & Hmain & Hcreated); [reflexivity|].
    exists status, s. split; [exact Hmain|]. rewrite Hcreated. reflexivity.
Defined.

(** ** Source files *)

Section Sources.
Context (env env' : Env).
Hypothesis Hfind : ∀ x, findRtagsDb env x = findRtagsDb env' x.
Hypothesis Hcreate : ∀ t p, create env t p = create env' t p.

(** The option loop looks at the environment through [findRtagsDb] only. *)
Lemma loop_body_env argv st : loop_body env argv st = loop_body env' argv st.
Proof.
  unfold loop_body.
  destruct (getopt argv (scanner st)) as [[[c|] oa] g]; [|done].
  destruct oa as [p|];
    destruct c as [[] [] [] [] [] [] [] []]; cbv beta iota zeta;
    rewrite ?Hfind; reflexivity.
Qed.

Lemma parse_env argv : parse env argv = parse env' argv.
Proof.
  unfold parse. generalize (S (Getopt.weight argv)) LoopState0.
  intros f. induction f as [|f IH]; intros st; [done|]. simpl.
  rewrite loop_body_env. destruct (loop_body env' argv st); auto.
Qed.

Lemma default_dbPaths_env o : default_dbPaths env o = default_dbPaths env' o.
Proof. unfold default_dbPaths. by rewrite !Hfind. Qed.

Lemma printLocationImpl_no_context l db flags :
  Output.truthy (N.land flags Output.NoContext) = true →
  Output.printLocationImpl env l db flags = Output.printLocationImpl env' l db flags.
Proof. intros H. unfold Output.printLocationImpl. by rewrite H. Qed.

Lemma mode_lines_no_context o db :
  Output.truthy (N.land (flags o) Output.NoContext) = true →
  mode_lines env o db = mode_lines env' o db.
Proof.
  intros H. unfold mode_lines. cbv zeta.
  assert (∀ ls, map (fun l => Output.printLocationImpl env l db (flags o)) ls =
                map (fun l => Output.printLocationImpl env' l db (flags o)) ls) as Hm.
  { intros ls. apply map_ext. intros l. by apply printLocationImpl_no_context. }
  assert (∀ ls, map (fun l => [Output.printLocationImpl env l db (flags o)]) ls =
                map (fun l => [Output.printLocationImpl env' l db (flags o)]) ls) as H1.
  { intros ls. apply map_ext. intros l. by rewrite printLocationImpl_no_context. }
  destruct (mode o); try reflexivity; repeat case_match; try reflexivity;
    by rewrite ?Hm, ?H1.
Qed.

Lemma run_mode_no_context o db s :
  Output.truthy (N.land (flags o) Output.NoContext) = true →
  run_mode env o db s = run_mode env' o db s.
Proof. intros H. by rewrite !run_mode_write, mode_lines_no_context. Qed.

Lemma each_db_no_context argv0 o paths s :
  Output.truthy (N.land (flags o) Output.NoContext) = true →
  each_db env argv0 o paths s = each_db env' argv0 o paths s.
Proof.
  intros H. revert s. induction paths as [|p paths IH]; intros s; [done|].
  cbn [each_db]. destruct (String.eqb p EmptyString); [apply IH|].
  erewrite !bind_run by apply opening_note. rewrite <- Hcreate.
  destruct (isOpened (create env (dbType o) p)); cbn [negb]; [|apply IH].
  destruct (mode o) eqn:Hm; try reflexivity;
    unfold mbind, M_bind; rewrite run_mode_no_context by done;
    destruct (run_mode env' o _ _); apply IH.
Qed.

(** X13. With the no-context option on the command line a run reads no
    source file: two environments with the same databases give the same
    run, whatever [fopen] and [readLine] do in them. *)
Theorem no_context_reads_no_source argv :
  "N"%char ∈ supplied argv → main env argv = main env' argv.
Proof.
  intros HN. unfold main. rewrite <- parse_env.
  destruct (parse env argv) as [[o|status s]|] eqn:Hp; [|done..].
  f_equal. unfold run. rewrite <- default_dbPaths_env.
  destruct (default_dbPaths env o); [done|].
  apply each_db_no_context.
  change Output.NoContext with (2 ^ 1).
  rewrite (flag_set env argv o "N"%char 1 Hp) by reflexivity.
  by apply bool_decide_eq_true_2.
Qed.
End Sources.

(** Follow-symbol for the name [foo], which prints two locations, where
    [/t/a.cpp] can be opened and where no source file can. With the
    no-context option the two runs agree; without it they differ. *)
Lemma no_context_reads_no_source_witness :
  main env0 ["rc"; "-N"; "-f"; "foo"] =
    main (mkEnv (findRtagsDb env0) (create env0) (fun _ => None) (readLine env0))
         ["rc"; "-N"; "-f"; "foo"] ∧
  main env0 ["rc"; "-N"; "-f"; "foo"] =
    Some (0%Z, mkSys [["/t/a.cpp:1:5"]; ["/t/a.cpp:1:5"]] [] ["/t/.rtags.db"]
                     [(QFollowLocation, callFoo); (QFollowLocation, callBar)]) ∧
  main env0 ["rc"; "-f"; "foo"] ≠
    main (mkEnv (findRtagsDb env0) (create env0) (fun _ => None) (readLine env0))
         ["rc"; "-f"; "foo"].
Proof.
  split_and!.
  - apply no_context_reads_no_source; [done|done|].
    vm_compute. apply list_elem_of_In. simpl. auto.
  - reflexivity.
  - vm_compute. discriminate.
Defined.

(** ** Optional arguments *)

Section Spellings.
Context (env : Env).

Lemma loop_fuel f f' argv st r :
  loop f env argv st = Some r → (f ≤ f')%nat → loop f' env argv st = Some r.
Proof.
  revert f' st. induction f as [|f IH]; intros f' st; [done|].
  destruct f' as [|f']; [lia|]. simpl.
  destruct (loop_body env argv st); [|done..].
  intros H Hle. apply IH; [done|lia].
Qed.

Lemma parse_by_loop argv r :
  loop 2 env argv LoopState0 = Some r → (1 ≤ Getopt.weight argv)%nat →
  parse env argv = Some r.
Proof. intros H Hw. apply (loop_fuel 2); [done|lia]. Qed.

Lemma parse_word a0 (w : string) c m x :
  mode_of_letter c = Some m → (c = "P"%char ∨ c = "l"%char) →
  getopt [a0; w; x] Getopt.initial = (Some c, None, Getopt.mkState 2 EmptyString) →
  String.prefix "-" x = false →
  parse env [a0; w; x] = Some (Parsed (mkOpts m 0 x [] None)).
Proof.
  intros Hm Hc Hg Hx. apply parse_by_loop; [|simpl; lia].
  cbn [loop]. unfold loop_body at 1.
  change (scanner LoopState0) with Getopt.initial. rewrite Hg.
  assert (optional_arg [a0; w; x] None (Getopt.mkState 2 EmptyString)
                       (set_mode Opts0 m) =
          Continue (mkLoopState (Getopt.mkState 3 EmptyString) (mkOpts m 0 x [] None)))
    as Ho by (unfold optional_arg; simpl; by rewrite Hx).
  destruct Hc as [-> | ->]; injection Hm as <-; cbv beta iota zeta;
    unfold SET_MODE; cbn [opts mode LoopState0 Opts0]; rewrite Ho; reflexivity.
Qed.

Lemma parse_attached a0 (w : string) c m oa :
  mode_of_letter c = Some m → (c = "P"%char ∨ c = "l"%char) →
  getopt [a0; w] Getopt.initial = (Some c, oa, Getopt.mkState 2 EmptyString) →
  parse env [a0; w] = Some (Parsed (mkOpts m 0 (of_charp oa) [] None)).
Proof.
  intros Hm Hc Hg. apply parse_by_loop; [|simpl; lia].
  cbn [loop]. unfold loop_body at 1.
  change (scanner LoopState0) with Getopt.initial. rewrite Hg.
  assert (optional_arg [a0; w] oa (Getopt.mkState 2 EmptyString)
                       (set_mode Opts0 m) =
          Continue (mkLoopState (Getopt.mkState 2 EmptyString)
                                (mkOpts m 0 (of_charp oa) [] None)))
    as Ho by (unfold optional_arg; simpl; by destruct oa as [[|??]|]).
  destruct Hc as [-> | ->]; injection Hm as <-; cbv beta iota zeta;
    unfold SET_MODE; cbn [opts mode LoopState0 Opts0]; rewrite Ho; reflexivity.
Qed.

Lemma append_string a (x y : string) : String a x +:+ y = String a (x +:+ y).
Proof. reflexivity. Qed.

(** X8. The argument of the files option can be the next word, be attached
    to the short option, or follow the long option after an equals sign:
    the three command lines end the option loop alike and give the same
    run. The same holds for list-symbols. *)
Theorem optional_argument_spellings a0 x :
  String.prefix "-" x = false →
  (parse env [a0; "-P"; x] = Some (Parsed (mkOpts Files 0 x [] None)) ∧
   main env [a0; "-P" +:+ x] = main env [a0; "-P"; x] ∧
   main env [a0; "--files=" +:+ x] = main env [a0; "-P"; x]) ∧
  (parse env [a0; "-l"; x] = Some (Parsed (mkOpts ListSymbols 0 x [] None)) ∧
   main env [a0; "-l" +:+ x] = main env [a0; "-l"; x] ∧
   main env [a0; "--list-symbols=" +:+ x] = main env [a0; "-l"; x]).
Proof.
  intros Hx.
  assert (∀ w m, parse env [a0; w] = Some (Parsed (mkOpts m 0 x [] None)) →
                 ∀ w', parse env [a0; w'; x] = Some (Parsed (mkOpts m 0 x [] None)) →
                 main env [a0; w] = main env [a0; w'; x]) as Hmain.
  { intros w m H1 w' H2. unfold main. by rewrite H1, H2. }
  assert (parse env [a0; "-P"; x] = Some (Parsed (mkOpts Files 0 x [] None))) as HP
    by (apply (parse_word a0 "-P" "P"%char); [reflexivity|by left|reflexivity|exact Hx]).
  assert (parse env [a0; "-l"; x] = Some (Parsed (mkOpts ListSymbols 0 x [] None))) as Hl
    by (apply (parse_word a0 "-l" "l"%char); [reflexivity|by right|reflexivity|exact Hx]).
  rewrite !append_string.
  destruct x as [|ch x].
  - split; (split; [done|]); split; (eapply Hmain; [|eassumption]).
    + apply (parse_attached a0 _ "P"%char _ None); [reflexivity|by left|reflexivity].
    + apply (parse_attached a0 _ "P"%char _ (Some EmptyString));
        [reflexivity|by left|reflexivity].
    + apply (parse_attached a0 _ "l"%char _ None); [reflexivity|by right|reflexivity].
    + apply (parse_attached a0 _ "l"%char _ (Some EmptyString));
        [reflexivity|by right|reflexivity].
  - split; (split; [done|]); split; (eapply Hmain; [|eassumption]);
      first [ apply (parse_attached a0 _ "P"%char _ (Some (String ch x)));
              [reflexivity|by left|reflexivity]
            | apply (parse_attached a0 _ "l"%char _ (Some (String ch x)));
              [reflexivity|by right|reflexivity] ].
Qed.

End Spellings.

(** The three spellings of [rc -P a.]. *)
Lemma optional_argument_spellings_witness :
  main env0 ["rc"; "-Pa."] = main env0 ["rc"; "-P"; "a."] ∧
  main env0 ["rc"; "--files=a."] = main env0 ["rc"; "-P"; "a."].
Proof.
  destruct (optional_argument_spellings env0 "rc" "a.") as [(_ & H1 & H2) _];
    [reflexivity|].
  split; [exact H1|exact H2].
Defined.

(** ** The usage text and the option table *)

(** X17. The usage text names three long options, [--db-file],
    [--print-db-path] and [--detect-db], that the option table does not
    have: a command line that starts with one of them is refused as an
    invalid option, with exit status [1] and nothing on [stdout]. *)
Theorem advertised_long_options (env : Env) (a0 n : string) (rest : list string) :
  n ∈ ["db-file"; "print-db-path"; "detect-db"] →
  (∃ l, l ∈ usage_lines a0 ∧ String.prefix ("  --" +:+ n +:+ "|") l = true) ∧
  (∀ o, o ∈ longOptions → Getopt.name o ≠ n) ∧
  main env (a0 :: ("--" +:+ n) :: rest) =
    Some (1%Z, invalid_out (a0 :: ("--" +:+ n) :: rest) (argv_at (a0 :: rest) 1)).
Proof.
  intros Hn.
  assert (n = "db-file" ∨ n = "print-db-path" ∨ n = "detect-db") as Hcases.
  { repeat (apply elem_of_cons in Hn as [->|Hn]; [auto|]). by apply elem_of_nil in Hn. }
  split_and!.
  - destruct Hcases as [-> | [-> | ->]].
    + exists "  --db-file|-d [arg]            Find database using this path".
      split; [apply (list_elem_of_lookup_2 _ 2%nat)|]; reflexivity.
    + exists "  --print-db-path|-p            Print out the used database path(s)".
      split; [apply (list_elem_of_lookup_2 _ 3%nat)|]; reflexivity.
    + exists "  --detect-db|-D                Find .rtags.db based on path".
      split; [apply (list_elem_of_lookup_2 _ 4%nat)|]; reflexivity.
  - intros o Ho. unfold longOptions in Ho.
    repeat (apply elem_of_cons in Ho as [->|Ho];
            [destruct Hcases as [-> | [-> | ->]]; discriminate|]).
    by apply elem_of_nil in Ho.
  - set (argv := a0 :: ("--" +:+ n) :: rest).
    assert (getopt argv (scanner LoopState0) =
            (Some "?"%char, None, Getopt.mkState 2 EmptyString)) as Hg
      by (unfold argv; destruct Hcases as [-> | [-> | ->]]; reflexivity).
    assert (parse env argv = Some (Exited 1 (invalid_out argv (argv_at (a0 :: rest) 1))))
      as Hp.
    { apply parse_by_loop; [|unfold argv; simpl; lia].
      cbn [loop]. rewrite (loop_body_invalid env argv _ _ _ Hg). reflexivity. }
    unfold main. rewrite Hp. reflexivity.
Qed.

(** The command line [rc --db-file x -f foo]. *)
Lemma advertised_long_options_witness :
  main env0 ["rc"; "--db-file"; "x"; "-f"; "foo"] =
    Some (1%Z, invalid_out ["rc"; "--db-file"; "x"; "-f"; "foo"] "x").
Proof.
  apply (advertised_long_options env0 "rc" "db-file" ["x"; "-f"; "foo"]).
  apply list_elem_of_here.
Defined.

(** ** The printer *)

Section Printing.
Context (env : Env).

(** An entry does not depend on the flags that arrange the entries. *)
Lemma printLocationImpl_bits loc db flags flags' :
  N.testbit flags 0 = N.testbit flags' 0 →
  N.testbit flags 1 = N.testbit flags' 1 →
  N.testbit flags 4 = N.testbit flags' 4 →
  Output.printLocationImpl env loc db flags = Output.printLocationImpl env loc db flags'.
Proof.
  intros H0 H1 H4. unfold Output.printLocationImpl.
  change Output.PathsRelativeToRoot with (2 ^ 0).
  change Output.PrecedingSpacePending with (2 ^ 4).
  change Output.NoContext with (2 ^ 1).
  rewrite !truthy_land_pow2. by rewrite H0, H1, H4.
Qed.

Lemma qSort_singleton e : qSort [e] = [e].
Proof. reflexivity. Qed.

(** X11. What [printLocation] writes for a location is what
    [printLocations] writes for the list of that one location, whatever the
    flags: one line holding the entry. *)
Theorem printLocation_single (flags : N) (loc : Location) (db : Database) (s : Sys) :
  Output.printLocation env flags loc db s = Output.printLocations env flags [loc] db s ∧
  stdout (Output.printLocation env flags loc db s).2 =
    stdout s ++ [[Output.printLocationImpl env loc db flags]].
Proof.
  assert (Output.printLocationImpl env loc db (N.ldiff flags Output.SeparateLocationsBySpace)
          = Output.printLocationImpl env loc db flags) as Hi.
  { apply printLocationImpl_bits; rewrite N.ldiff_spec;
      change Output.SeparateLocationsBySpace with (2 ^ 3);
      rewrite N.pow2_bits_false by lia; apply andb_true_r. }
  unfold Output.printLocation, Output.printLocations. cbv zeta. rewrite Hi.
  cbn [map]. rewrite qSort_singleton.
  split.
  - by destruct (Output.truthy (N.land flags Output.SortOutput)),
             (Output.truthy (N.land flags Output.SeparateLocationsBySpace)).
  - reflexivity.
Qed.

(** X12. [printLocations] writes to [stdout] only. Its lines hold the
    entries of the locations, each once: all on one line with the
    separate-by-space flag, which is written also when there is no
    location, and one entry a line without it. The entries are sorted with
    the sort-output flag and in the order of the locations without it. *)
Theorem printLocations_lines (flags : N) (t : list Location) (db : Database) (s : Sys) :
  let entries := map (fun l => Output.printLocationImpl env l db flags) t in
  ∃ lines,
    (Output.printLocations env flags t db s).2 =
      mkSys (stdout s ++ lines) (stderr s) (created s) (queried s) ∧
    concat lines ≡ₚ entries ∧
    (if N.testbit flags 3 then length lines = 1%nat
     else Forall (fun line => length line = 1%nat) lines) ∧
    (if N.testbit flags 5 then Sorted String.le (concat lines)
     else concat lines = entries).
Proof.
  intros entries. exists (lines_of flags entries).
  rewrite printLocations_write.
  split; [unfold write; simpl; by rewrite !app_nil_r|].
  split; [apply lines_of_Permutation|].
  rewrite <- (truthy_land_pow2 flags 3), <- (truthy_land_pow2 flags 5).
  change (2 ^ 3) with Output.SeparateLocationsBySpace.
  change (2 ^ 5) with Output.SortOutput.
  split.
  - unfold lines_of.
    destruct (Output.truthy (N.land flags Output.SeparateLocationsBySpace)); [done|].
    apply Forall_forall. intros line Hin. apply list_elem_of_fmap in Hin as (e & -> & _). done.
  - assert (concat (lines_of flags entries) =
            if Output.truthy (N.land flags Output.SortOutput)
            then qSort entries else entries) as ->.
    { unfold lines_of.
      destruct (Output.truthy (N.land flags Output.SeparateLocationsBySpace));
        simpl; by rewrite ?app_nil_r, ?concat_singletons. }
    destruct (Output.truthy (N.land flags Output.SortOutput)); [apply qSort_sorted|done].
Qed.

Lemma NoDup_unite out r : NoDup out → NoDup (unite out r).
Proof.
  unfold unite. revert out. induction r as [|x r IH]; intros out Hout; simpl; [done|].
  apply IH. case_decide; [done|].
  apply NoDup_app. split_and!; [done| |apply NoDup_singleton].
  intros y Hy Hx. apply list_elem_of_singleton in Hx as ->. done.
Qed.

Lemma NoDup_foldl_unite (f : Location → list Location) acc ls :
  NoDup acc → NoDup (foldl (fun out l => unite out (f l)) acc ls).
Proof.
  revert acc. induction ls as [|l ls IH]; intros acc Hacc; simpl; [done|].
  by apply IH, NoDup_unite.
Qed.

(** X14. Find-subs, and find-references for a symbol name, gather their
    locations in a set: each location the database reports for the
    argument's location, or for some location of the name, is handed to the
    printer once, however many symbols report it. Find-subs writes nothing
    when there is none. *)
Theorem gathered_once (o : Opts) (db : Database) (s : Sys) :
  let loc := createLocation db (arg o) in
  let from := if isValid loc then [loc] else findSymbol db (arg o) in
  let entry := fun l => Output.printLocationImpl env l db (flags o) in
  mode o = FindSubs ∨ (mode o = References ∧ isValid loc = false) →
  ∃ out lines,
    stdout (run_mode env o db s).2 = stdout s ++ lines ∧
    concat lines ≡ₚ map entry out ∧
    NoDup out ∧
    (∀ l, l ∈ out ↔ ∃ l0, l0 ∈ from ∧ l ∈ query db (mode o) l0) ∧
    (mode o = FindSubs → out = [] → lines = []).
Proof.
  intros loc from entry Hm.
  exists (printed db (mode o) (arg o)), (mode_lines env o db).
  rewrite run_mode_write.
  split; [reflexivity|].
  split.
  { unfold mode_lines. fold loc. fold entry.
    destruct Hm as [Hm|[Hm Hv]]; rewrite Hm.
    - destruct (printed db FindSubs (arg o)) eqn:E; [done|].
      apply lines_of_Permutation.
    - apply lines_of_Permutation. }
  split.
  { unfold printed. fold loc.
    destruct Hm as [Hm|[Hm Hv]]; rewrite Hm.
    - destruct (isValid loc); [apply NoDup_unite|apply NoDup_foldl_unite]; apply NoDup_nil_2.
    - rewrite Hv. apply NoDup_foldl_unite, NoDup_nil_2. }
  split.
  { intros l. unfold printed, from. fold loc.
    destruct Hm as [Hm|[Hm Hv]]; rewrite Hm; cbn [query].
    - destruct (isValid loc).
      + rewrite elem_of_unite. split.
        * intros [H|H]; [by apply elem_of_nil in H|].
          exists loc. split; [by left|done].
        * intros (l0 & H0 & Hl). apply list_elem_of_singleton in H0 as ->. by right.
      + rewrite elem_of_foldl_unite. split.
        * intros [H|H]; [by apply elem_of_nil in H|done].
        * intros H. by right.
    - rewrite Hv. rewrite elem_of_foldl_unite. split.
      + intros [H|H]; [by apply elem_of_nil in H|done].
      + intros H. by right. }
  intros Hs Hout. unfold mode_lines. rewrite Hs. rewrite Hs in Hout. by rewrite Hout.
Qed.
End Printing.

(** Find-subs for the name [foo] in a database where each of the two
    locations of the name reports the same two subs: four reports, two
    locations handed to the printer, two lines. *)
Lemma gathered_once_witness :
  findSubs db_subs callFoo = [declFoo; callBar] ∧
  findSubs db_subs callBar = [callBar; declFoo] ∧
  ∃ out lines,
    stdout (run_mode env0 (mkOpts FindSubs 2 "foo" [] None) db_subs Sys0).2 = lines ∧
    lines = [["/t/a.cpp:1:5"]; ["/t/b.cpp:7:3"]] ∧
    NoDup out ∧ length out = 2%nat ∧ declFoo ∈ out ∧ callBar ∈ out.
Proof.
  split; [reflexivity|]. split; [reflexivity|].
  destruct (gathered_once env0 (mkOpts FindSubs 2 "foo" [] None) db_subs Sys0)
    as (out & lines & H1 & H2 & H3 & H4 & _).
  - left. reflexivity.
  - exists out, lines.
    assert (lines = [["/t/a.cpp:1:5"]; ["/t/b.cpp:7:3"]]) as Hl by exact (eq_sym H1).
    split_and!.
    + exact H1.
    + exact Hl.
    + exact H3.
    + apply Permutation_length in H2. rewrite Hl in H2.
      rewrite length_map in H2. symmetry. exact H2.
    + apply H4. exists callFoo. split; [apply list_elem_of_here|apply list_elem_of_here].
    + apply H4. exists callBar.
      split; [apply list_elem_of_further, list_elem_of_here|apply list_elem_of_here].
Defined.

(** ** The log *)

Section Log.

Lemma app_string_assoc (a b c : string) : (a +:+ b) +:+ c = a +:+ (b +:+ c).
Proof. induction a as [|x a IH]; [done|]. change (String x ((a +:+ b) +:+ c) = String x (a +:+ b +:+ c)). by rewrite IH. Qed.

Lemma app_string_nil_r (a : string) : a +:+ EmptyString = a.
Proof. induction a as [|x a IH]; [done|]. change (String x (a +:+ EmptyString) = String x a). by rewrite IH. Qed.

Lemma app_string_inj (a b c : string) : a +:+ b = a +:+ c → b = c.
Proof.
  induction a as [|x a IH]; [done|].
  change (String x (a +:+ b) = String x (a +:+ c) → b = c). intros [= H]. by apply IH.
Qed.

(** The arguments between quotes, each followed by a space. *)
Lemma log_line_quoted (cwd : option string) (argv : list string) :
  log_line cwd argv =
  match cwd with Some buf => "( cd " +:+ buf +:+ " && " | None => EmptyString end +:+
  foldr (fun a rest => "'" +:+ a +:+ "' " +:+ rest)
        (match cwd with Some _ => " )" | None => EmptyString end +:+ nl) argv.
Proof.
  unfold log_line. cbv zeta.
  set (pre := match cwd with
              | Some buf => ((EmptyString +:+ "( cd ") +:+ buf) +:+ " && "
              | None => EmptyString end).
  set (suf := match cwd with Some _ => " )" | None => EmptyString end).
  assert (∀ log, match cwd with
                 | Some _ => log +:+ " )" | None => log end +:+ nl
                 = log +:+ (suf +:+ nl)) as Hsuf.
  { intros log. unfold suf. destruct cwd; [by rewrite app_string_assoc|done]. }
  rewrite Hsuf.
  assert (pre = match cwd with
                | Some buf => "( cd " +:+ buf +:+ " && " | None => EmptyString end) as <-.
  { unfold pre. destruct cwd; [|done]. by rewrite !app_string_assoc. }
  generalize pre. clear pre. generalize (suf +:+ nl). clear Hsuf suf.
  induction argv as [|a argv IH]; intros suf pre; simpl; [done|].
  rewrite IH. by rewrite !app_string_assoc.
Qed.

Lemma contains_quote c (a : string) :
  contains (String c a) "'" = Ascii.eqb c "'" || contains a "'".
Proof.
  change (contains (String c a) "'") with (String.prefix "'" (String c a) || contains a "'").
  change (String.prefix "'" (String c a))
    with (if ascii_dec "'" c then String.prefix EmptyString a else false).
  destruct (ascii_dec "'" c) as [<-|Hc].
  - by destruct a.
  - assert (Ascii.eqb c "'" = false) as -> by (apply Ascii.eqb_neq; congruence). done.
Qed.

Lemma split_quote (a a' r r' : string) :
  contains a "'" = false → contains a' "'" = false →
  a +:+ String "'" r = a' +:+ String "'" r' → a = a' ∧ r = r'.
Proof.
  revert a'. induction a as [|c a IH]; intros [|c' a'] Ha Ha'.
  - intros [= H]. done.
  - change (String "'" r = String c' (a' +:+ String "'" r') → EmptyString = String c' a' ∧ r = r').
    intros [= <- _]. rewrite contains_quote in Ha'. done.
  - change (String c (a +:+ String "'" r) = String "'" r' → String c a = EmptyString ∧ r = r').
    intros [= -> _]. rewrite contains_quote in Ha. done.
  - change (String c (a +:+ String "'" r) = String c' (a' +:+ String "'" r') →
            String c a = String c' a' ∧ r = r').
    intros [= <- H]. rewrite contains_quote in Ha, Ha'.
    apply orb_false_iff in Ha as [_ Ha]. apply orb_false_iff in Ha' as [_ Ha'].
    destruct (IH a' Ha Ha' H) as [-> ->]. done.
Qed.

(** X15. The line appended to the log names the command line: two command
    lines that differ and whose arguments hold no quote character, logged
    from the same directory, give different lines. *)
Theorem log_line_inj (cwd : option string) (argv argv' : list string) :
  Forall (fun a => contains a "'" = false) argv →
  Forall (fun a => contains a "'" = false) argv' →
  argv ≠ argv' → log_line cwd argv ≠ log_line cwd argv'.
Proof.
  intros Hq Hq' Hne H. apply Hne. clear Hne. revert H.
  rewrite !log_line_quoted. intros H. apply app_string_inj in H.
  set (suf := match cwd with Some _ => " )" | None => EmptyString end +:+ nl) in H.
  assert (∀ a rest, suf ≠ String "'" (a +:+ rest)) as Hsuf
    by (intros a rest; unfold suf; destruct cwd; discriminate).
  clearbody suf. revert argv' Hq' H.
  induction Hq as [|a argv Ha Hq IH]; intros argv' Hq' H;
    destruct Hq' as [|a' argv' Ha' Hq']; simpl in H.
  - done.
  - exfalso. apply (Hsuf _ _ H).
  - exfalso. symmetry in H. apply (Hsuf _ _ H).
  - change (String "'" (a +:+ String "'" (String " " (foldr (fun a rest => "'" +:+ a +:+ "' " +:+ rest) suf argv))) =
            String "'" (a' +:+ String "'" (String " " (foldr (fun a rest => "'" +:+ a +:+ "' " +:+ rest) suf argv')))) in H.
    injection H as H. apply split_quote in H as [-> H]; [|done|done].
    injection H as H. f_equal. by apply IH.
Qed.

(** X16. The arguments are logged as they are, with no quote escaped: an
    argument that holds the three characters quote, space, quote is logged
    as the two arguments it is made of. *)
Theorem log_line_unescaped (cwd : option string) (a b : string) (rest : list string) :
  log_line cwd ((a +:+ "' '" +:+ b) :: rest) = log_line cwd (a :: b :: rest).
Proof.
  rewrite !log_line_quoted. f_equal. simpl.
  change "' " with (String "'" (String " " EmptyString)).
  rewrite !app_string_assoc. reflexivity.
Qed.
End Log.

(** The command lines [rc -f foo] and [rc -f bar], logged from [/t]. *)
Lemma log_line_inj_witness :
  log_line (Some "/t") ["rc"; "-f"; "foo"] ≠ log_line (Some "/t") ["rc"; "-f"; "bar"].
Proof.
  apply (log_line_inj (Some "/t") ["rc"; "-f"; "foo"] ["rc"; "-f"; "bar"]);
    [repeat constructor | repeat constructor | discriminate].
Defined.
